(** * The module orchestration engine of [src/parser/core/Parser.js]

    A shallow embedding of the [Parser] class: the module registry
    ([_constructors]), the dependency resolution and instantiation of
    [buildModules], the two-pass event pipeline of [parseEvents]
    ([normalise], then [triggerEvent] with the fabricated [init] and
    [complete] events), the failure cascade of [_setModuleError] and the
    report assembly of [generateResults].

    Conventions of the embedding.
    - Module handles (the keys of [_constructors]) are strings.
    - A JavaScript object used as a dictionary is a [gmap]; where the
      enumeration order of its keys is observable ([Object.keys] of
      [_constructors]) it is an association list in insertion order.
    - The mutable fields of all module instances live in one shared store
      (type [store]); the methods of a module are functions on it.
    - A method that may throw returns its exception next to the store it left
      behind.
    - Every call the engine makes into a module is recorded in a trace of
      observations, so that "who received what, in which order" is a
      statement about a list. *)

From Stdlib Require Import ZArith.
From stdpp Require Import base list strings gmap relations sorting.

Open Scope string_scope.
Open Scope list_scope.
Open Scope nat_scope.

(** ** Results of computations that may throw *)

(** [OutOfFuel] is the outcome of a recursion that was cut off by the fuel of
    the embedding; it corresponds to no JavaScript behaviour, and the theorems
    below show it does not occur. *)
Inductive result (E A : Type) : Type :=
  | Ok (a : A)
  | Throws (e : E)
  | OutOfFuel.
Arguments Ok {E A} a.
Arguments Throws {E A} e.
Arguments OutOfFuel {E A}.

(** ** The [toposort] package

    [Parser.js] imports [toposort] (line 2) and calls [toposort.array(nodes,
    edges)] (line 114). The package is a dependency of the repository, not
    part of it; the definitions of this module transcribe the function
    [toposort(nodes, edges)] of its [index.js] (version 2). *)
Module Toposort.

Inductive Error : Type :=
  | CyclicDependency (node : string)   (* Error('Cyclic dependency, node was: ...') *)
  | UnknownNode.                       (* Error('Unknown node. ...') *)

(** The two variables the recursion of [visit] shares with its caller:
    [visited] (the package keys it by the index of the node, which for the
    distinct keys of an object identifies the node) and [sorted], the part
    of the result array that has been written. The array is filled from its
    last cell downwards ([sorted[--cursor] = node]), so writing a cell is
    consing onto the written part. *)
Record State : Type := mkState {
  visited : gset string;
  sorted : list string;
}.

Section with_graph.
Variable nodes : list string.
Variable edges : list (string * string).

(** [makeOutgoingEdges]: for each edge, [edges.get(edge[0]).add(edge[1])];
    a [Set] keeps the order of first insertion. *)
Definition outgoingEdges (node : string) : list string :=
  fold_left
    (λ out edge,
       if decide (edge.1 = node)
       then if decide (edge.2 ∈ out) then out else out ++ [edge.2]
       else out)
    edges [].

(** Runs a throwing function over a list, threading the state. *)
Fixpoint each (f : string → State → result Error State)
    (l : list string) (s : State) : result Error State :=
  match l with
  | [] => Ok s
  | x :: l' =>
      match f x s with
      | Ok s' => each f l' s'
      | Throws e => Throws e
      | OutOfFuel => OutOfFuel
      end
  end.

(** [visit(node, i, predecessors)]. The children are visited from the last
    of [outgoing] to the first ([outgoing[--i]]). [fuel] bounds the depth
    of the recursion in the embedding. *)
Fixpoint visit (fuel : nat) (node : string) (predecessors : gset string)
    (s : State) : result Error State :=
  match fuel with
  | O => OutOfFuel
  | S fuel' =>
      if decide (node ∈ predecessors) then Throws (CyclicDependency node)
      else if decide (node ∈ nodes) then
        if decide (node ∈ visited s) then Ok s
        else
          let s1 := mkState ({[node]} ∪ visited s) (sorted s) in
          match each (λ child, visit fuel' child ({[node]} ∪ predecessors))
                     (reverse (outgoingEdges node)) s1 with
          | Ok s2 => Ok (mkState (visited s2) (node :: sorted s2))
          | Throws e => Throws e
          | OutOfFuel => OutOfFuel
          end
      else Throws UnknownNode
  end.

(** [toposort(nodes, edges)]: the check for unknown nodes, then
    [while (i--) if (!visited[i]) visit(nodes[i], i, new Set())]. *)
Definition array : result Error (list string) :=
  if decide (Forall (λ edge, edge.1 ∈ nodes ∧ edge.2 ∈ nodes) edges) then
    match each (λ node s,
                  if decide (node ∈ visited s) then Ok s
                  else visit (S (length nodes)) node ∅ s)
               (reverse nodes) (mkState ∅ []) with
    | Ok s => Ok (sorted s)
    | Throws e => Throws e
    | OutOfFuel => OutOfFuel
    end
  else Throws UnknownNode.
End with_graph.

End Toposort.


(** ** Vocabulary for the statements about the resolver *)

Section resolver_vocabulary.
Variable nodes : list string.
Variable edges : list (string * string).

(** The edge relation of the graph. *)
Definition edge (a b : string) : Prop := (a, b) ∈ edges.

(** Each element of the list is followed by all the targets of its
    edges. *)
Fixpoint closed_order (l : list string) : Prop :=
  match l with
  | [] => True
  | a :: l' => (∀ b, edge a b → b ∈ l') ∧ closed_order l'
  end.

(** The invariant of the traversal, for a call whose set of predecessors is
    [P]. *)
Record visit_inv (P : gset string) (s : Toposort.State) : Prop := {
  inv_NoDup : NoDup (Toposort.sorted s);
  inv_closed : closed_order (Toposort.sorted s);
  inv_sorted :
    ∀ x, x ∈ Toposort.sorted s → x ∈ Toposort.visited s ∧ x ∈ nodes ∧ x ∉ P;
  inv_visited : ∀ x, x ∈ Toposort.visited s → x ∈ Toposort.sorted s ∨ x ∈ P;
}.

(** From [s] to [s'] nodes were only added. *)
Definition extends (s s' : Toposort.State) : Prop :=
  Toposort.visited s ⊆ Toposort.visited s'
  ∧ ∀ x, x ∈ Toposort.sorted s → x ∈ Toposort.sorted s'.

(** The number of nodes not yet visited. *)
Definition unvisited (s : Toposort.State) : nat :=
  size (list_to_set nodes ∖ Toposort.visited s : gset string).

(** The body of the [while] loop of [toposort]. *)
Definition top_visit (node : string) (s : Toposort.State)
    : result Toposort.Error Toposort.State :=
  if decide (node ∈ Toposort.visited s) then Ok s
  else Toposort.visit nodes edges (S (length nodes)) node ∅ s.
End resolver_vocabulary.

(** ** The types the engine does not look into *)

Class Host : Type := {
  store : Type;    (* the mutable fields of all module instances *)
  exn : Type;      (* the Error objects thrown by module code *)
  markup : Type;   (* what [output()] returns when it returns something *)
  data : Type;     (* the fields of an event that the engine passes through *)
}.

Section Engine.
Context {H : Host}.

(** An event as the trigger pass hands it to a module. *)
Record Event : Type := mkEvent {
  type : string;
  timestamp : Z;
  trigger : option data;
  __fabricated : bool;
  fields : list (string * data);   (* the other properties *)
}.

(** The object literal given to [fabricateEvent]: it may or may not carry a
    [timestamp] and a [trigger] of its own. *)
Record EventInit : Type := mkEventInit {
  init_type : string;
  init_timestamp : option Z;
  init_trigger : option data;
  init_fields : list (string * data);
}.

(** A module class together with what its instances do. [dependencies] and
    [displayOrder] are the static properties the engine reads; the methods
    act on the shared store. [construct] and [normalise] return [None] when
    they throw; [handleEvent] is the [triggerEvent] method of the module
    (the name the specification gives it) and returns the thrown Error, if
    any, and the store as the call left it; [output] renders from the store
    without changing it and returns [None] for a falsy value. *)
Record ModuleClass : Type := mkModuleClass {
  dependencies : list string;
  displayOrder : Z;
  name : string;
  construct : store → option store;
  normalise : list Event → store → option (list Event * store);
  handleEvent : Event → store → option exn * store;
  output : store → option markup;
}.

(** The values stored in [_moduleErrors]. *)
Inductive ModuleError : Type :=
  | RuntimeError (error : exn)                    (* thrown by the module *)
  | NoInstance                                    (* TypeError: modules[mod] is undefined *)
  | DependencyCascadeError (dependency : string). (* new DependencyCascadeError({dependency}) *)

(** The exceptions that leave the engine. *)
Inductive Fatal : Type :=
  | ResolutionFailed (e : Toposort.Error)
  | ConstructionFailed (mod' : string)
  | NormaliseFailed (mod' : string)
  | MissingInstance (mod' : string).

Inductive Markup : Type :=
  | Output (o : markup)
  | ErrorMessage (error : ModuleError).           (* <ErrorMessage error={error} /> *)

Record ResultEntry : Type := mkResult {
  result_name : string;
  result_markup : Markup;
}.

(** What the engine does to the modules, in the order it does it, and the
    values of [_triggerModules] and [_moduleErrors] after each assignment to
    either. *)
Inductive Obs : Type :=
  | Constructed (mod' : string)
  | Normalised (mod' : string) (input output : list Event)
  | Triggered (mod' : string) (event : Event)
  | Threw (mod' : string) (error : exn)
  | Mutated (live : list string) (errors : gmap string ModuleError)
  | OutputCalled (mod' : string).

Record Parser : Type := mkParser {
  fight_start_time : Z;
  fight_end_time : Z;
  _timestamp : Z;
  modules : gmap string ModuleClass;
  _constructors : list (string * ModuleClass);
  moduleOrder : list string;
  _triggerModules : list string;
  _moduleErrors : gmap string ModuleError;
  heap : store;
}.

Definition set_timestamp (t : Z) (p : Parser) : Parser :=
  mkParser (fight_start_time p) (fight_end_time p) t (modules p)
    (_constructors p) (moduleOrder p) (_triggerModules p) (_moduleErrors p)
    (heap p).
Definition set_modules (m : gmap string ModuleClass) (p : Parser) : Parser :=
  mkParser (fight_start_time p) (fight_end_time p) (_timestamp p) m
    (_constructors p) (moduleOrder p) (_triggerModules p) (_moduleErrors p)
    (heap p).
Definition set_constructors (c : list (string * ModuleClass)) (p : Parser) : Parser :=
  mkParser (fight_start_time p) (fight_end_time p) (_timestamp p) (modules p)
    c (moduleOrder p) (_triggerModules p) (_moduleErrors p) (heap p).
Definition set_moduleOrder (o : list string) (p : Parser) : Parser :=
  mkParser (fight_start_time p) (fight_end_time p) (_timestamp p) (modules p)
    (_constructors p) o (_triggerModules p) (_moduleErrors p) (heap p).
Definition set_triggerModules (l : list string) (p : Parser) : Parser :=
  mkParser (fight_start_time p) (fight_end_time p) (_timestamp p) (modules p)
    (_constructors p) (moduleOrder p) l (_moduleErrors p) (heap p).
Definition set_moduleErrors (e : gmap string ModuleError) (p : Parser) : Parser :=
  mkParser (fight_start_time p) (fight_end_time p) (_timestamp p) (modules p)
    (_constructors p) (moduleOrder p) (_triggerModules p) e (heap p).
Definition set_heap (h : store) (p : Parser) : Parser :=
  mkParser (fight_start_time p) (fight_end_time p) (_timestamp p) (modules p)
    (_constructors p) (moduleOrder p) (_triggerModules p) (_moduleErrors p) h.

(** [get currentTimestamp()] *)
Definition currentTimestamp (p : Parser) : Z :=
  Z.min (fight_end_time p) (_timestamp p).

(** [get fightDuration()] *)
Definition fightDuration (p : Parser) : Z :=
  currentTimestamp p - fight_start_time p.

(** *** Module handling *)

(** [this._constructors[mod]] *)
Fixpoint constructor_of (reg : list (string * ModuleClass)) (mod' : string)
    : option ModuleClass :=
  match reg with
  | [] => None
  | (key, cls) :: reg' =>
      if decide (key = mod') then Some cls else constructor_of reg' mod'
  end.

(** [Object.assign(target, source)] on objects with string keys: a key
    already present keeps its place and takes the new value, a new key goes
    to the end. Module handles are names such as [about] or [gcd], none of
    them an array index, so that [Object.keys] lists them as inserted. *)
Fixpoint assign_key (key : string) (cls : ModuleClass)
    (target : list (string * ModuleClass)) : list (string * ModuleClass) :=
  match target with
  | [] => [(key, cls)]
  | (key', cls') :: target' =>
      if decide (key' = key) then (key, cls) :: target'
      else (key', cls') :: assign_key key cls target'
  end.

Definition object_assign (target source : list (string * ModuleClass))
    : list (string * ModuleClass) :=
  fold_left (λ acc kv, assign_key kv.1 kv.2 acc) source target.

(** [constructor(report, fight, player)], with the static [defaultModules]
    as an argument. *)
Definition new_Parser (defaultModules : list (string * ModuleClass))
    (start_time end_time : Z) (initial : store) : Parser :=
  mkParser start_time end_time start_time ∅
    (object_assign [] defaultModules) [] [] ∅ initial.

Definition addModules (mods : list (string * ModuleClass)) (p : Parser) : Parser :=
  set_constructors (object_assign (_constructors p) mods) p.

(** [Object.keys(this._constructors)] *)
Definition nodes_of (reg : list (string * ModuleClass)) : list string :=
  reg.*1.

(** The [edges] array of [buildModules]: one [[mod, dep]] per declared
    dependency, module by module. *)
Definition edges_of (reg : list (string * ModuleClass)) : list (string * string) :=
  flat_map (λ kv, map (λ dep, (kv.1, dep)) (dependencies kv.2)) reg.

(** The loop "Initialise the modules" of [buildModules]. *)
Fixpoint initialise (order : list string) (p : Parser)
    : result (Fatal * Parser * list Obs) (Parser * list Obs) :=
  match order with
  | [] => Ok (p, [])
  | mod' :: order' =>
      match constructor_of (_constructors p) mod' with
      | None => Throws (ConstructionFailed mod', p, [])
      | Some cls =>
          match construct cls (heap p) with
          | None => Throws (ConstructionFailed mod', p, [])
          | Some h =>
              let p1 := set_modules (<[mod' := cls]> (modules p)) (set_heap h p) in
              match initialise order' p1 with
              | Ok (p2, tr) => Ok (p2, Constructed mod' :: tr)
              | Throws (e, p2, tr) => Throws (e, p2, Constructed mod' :: tr)
              | OutOfFuel => OutOfFuel
              end
          end
      end
  end.

Definition buildModules (p : Parser)
    : result (Fatal * Parser * list Obs) (Parser * list Obs) :=
  let nodes := nodes_of (_constructors p) in
  let edges := edges_of (_constructors p) in
  match Toposort.array nodes edges with
  | Ok sorted => initialise (reverse sorted) (set_moduleOrder (reverse sorted) p)
  | Throws e => Throws (ResolutionFailed e, p, [])
  | OutOfFuel => OutOfFuel
  end.

(** *** Event handling *)

(** [array.indexOf(x)]; [None] stands for -1. *)
Definition indexOf (l : list string) (x : string) : option nat :=
  fst <$> list_find (λ y, y = x) l.

(** [array.splice(start, 1)] for [start] the result of [indexOf]: a
    negative start counts from the end, so -1 is the last element. *)
Definition splice_one (start : option nat) (l : list string) : list string :=
  match start with
  | Some i => delete i l
  | None => delete (length l - 1) l
  end.

(** [Object.keys(this._constructors).forEach(key => ...)] of
    [_setModuleError], for a given body [f] of the conditional. *)
Fixpoint for_dependents (f : string → Parser → option (Parser * list Obs))
    (mod' : string) (reg : list (string * ModuleClass)) (p : Parser)
    : option (Parser * list Obs) :=
  match reg with
  | [] => Some (p, [])
  | (key, constructor) :: reg' =>
      if decide (mod' ∈ dependencies constructor) then
        match f key p with
        | None => None
        | Some (p1, tr1) =>
            match for_dependents f mod' reg' p1 with
            | None => None
            | Some (p2, tr2) => Some (p2, tr1 ++ tr2)
            end
        end
      else for_dependents f mod' reg' p
  end.

(** [_setModuleError(mod, error)]. The recursion of the source is bounded
    here by [fuel]; [None] is a recursion cut off by it. *)
Fixpoint _setModuleError (fuel : nat) (mod' : string) (error : ModuleError)
    (p : Parser) : option (Parser * list Obs) :=
  match fuel with
  | O => None
  | S fuel' =>
      let live := splice_one (indexOf (_triggerModules p) mod') (_triggerModules p) in
      let p1 := set_triggerModules live p in
      let errors := <[mod' := error]> (_moduleErrors p1) in
      let p2 := set_moduleErrors errors p1 in
      match for_dependents
              (λ key, _setModuleError fuel' key (DependencyCascadeError mod'))
              mod' (_constructors p2) p2 with
      | None => None
      | Some (p3, tr) =>
          Some (p3, Mutated live (_moduleErrors p) :: Mutated live errors :: tr)
      end
  end.

(** The fuel given to the cascade: a chain of dependents in a registry
    without cycles is no longer than the registry. *)
Definition cascade_fuel (p : Parser) : nat := length (_constructors p).

(** [this._triggerModules.forEach(mod => ...)] of [triggerEvent].
    [forEach] reads the length once ([n] counts the indices still to visit)
    and then, for each index [k], reads the array as it is at that moment;
    an index past the current end is skipped. *)
Fixpoint triggerEvent_loop (n k : nat) (event : Event) (p : Parser)
    : option (Parser * list Obs) :=
  match n with
  | O => Some (p, [])
  | S n' =>
      match _triggerModules p !! k with
      | None => triggerEvent_loop n' (S k) event p
      | Some mod' =>
          match modules p !! mod' with
          | None =>
              match _setModuleError (cascade_fuel p) mod' NoInstance p with
              | None => None
              | Some (p1, tr1) =>
                  match triggerEvent_loop n' (S k) event p1 with
                  | None => None
                  | Some (p2, tr2) => Some (p2, tr1 ++ tr2)
                  end
              end
          | Some module =>
              let '(thrown, h) := handleEvent module event (heap p) in
              let p0 := set_heap h p in
              match thrown with
              | None =>
                  match triggerEvent_loop n' (S k) event p0 with
                  | None => None
                  | Some (p2, tr2) => Some (p2, Triggered mod' event :: tr2)
                  end
              | Some error =>
                  match _setModuleError (cascade_fuel p0) mod' (RuntimeError error) p0 with
                  | None => None
                  | Some (p1, tr1) =>
                      match triggerEvent_loop n' (S k) event p1 with
                      | None => None
                      | Some (p2, tr2) =>
                          Some (p2, Triggered mod' event :: Threw mod' error :: tr1 ++ tr2)
                      end
                  end
              end
          end
      end
  end.

Definition triggerEvent (event : Event) (p : Parser) : option (Parser * list Obs) :=
  triggerEvent_loop (length (_triggerModules p)) 0 event p.

(** [fabricateEvent(event, trigger)]: the properties of [event] are spread
    over the defaults, and [__fabricated] is set last. *)
Definition fabricated (event : EventInit) (trigger' : option data) (p : Parser) : Event :=
  mkEvent (init_type event)
    (default (currentTimestamp p) (init_timestamp event))
    (match init_trigger event with Some t => Some t | None => trigger' end)
    true
    (init_fields event).

Definition fabricateEvent (event : EventInit) (trigger' : option data) (p : Parser)
    : option (Parser * list Obs) :=
  triggerEvent (fabricated event trigger' p) p.

(** "Run normalisers": [moduleOrder.forEach(mod => events =
    modules[mod].normalise(events))], without a handler for exceptions. *)
Fixpoint run_normalisers (order : list string) (events : list Event) (p : Parser)
    : result (Fatal * Parser * list Obs) (list Event * Parser * list Obs) :=
  match order with
  | [] => Ok (events, p, [])
  | mod' :: order' =>
      match modules p !! mod' with
      | None => Throws (MissingInstance mod', p, [])
      | Some module =>
          match normalise module events (heap p) with
          | None => Throws (NormaliseFailed mod', p, [])
          | Some (events', h) =>
              match run_normalisers order' events' (set_heap h p) with
              | Ok (events'', p1, tr) =>
                  Ok (events'', p1, Normalised mod' events events' :: tr)
              | Throws (e, p1, tr) =>
                  Throws (e, p1, Normalised mod' events events' :: tr)
              | OutOfFuel => OutOfFuel
              end
          end
      end
  end.

(** "Run the analysis pass": [events.forEach(event => { this._timestamp =
    event.timestamp; this.triggerEvent(event) })]. *)
Fixpoint analysis_pass (events : list Event) (p : Parser)
    : option (Parser * list Obs) :=
  match events with
  | [] => Some (p, [])
  | event :: events' =>
      match triggerEvent event (set_timestamp (timestamp event) p) with
      | None => None
      | Some (p1, tr1) =>
          match analysis_pass events' p1 with
          | None => None
          | Some (p2, tr2) => Some (p2, tr1 ++ tr2)
          end
      end
  end.

Definition init_event : EventInit := mkEventInit "init" None None [].
Definition complete_event : EventInit := mkEventInit "complete" None None [].

Definition parseEvents (events : list Event) (p : Parser)
    : result (Fatal * Parser * list Obs) (Parser * list Obs) :=
  match run_normalisers (moduleOrder p) events p with
  | Throws e => Throws e
  | OutOfFuel => OutOfFuel
  | Ok (events', p1, tr1) =>
      let p2 := set_triggerModules (moduleOrder p1) p1 in
      match fabricateEvent init_event None p2 with
      | None => OutOfFuel
      | Some (p3, tr3) =>
          match analysis_pass events' p3 with
          | None => OutOfFuel
          | Some (p4, tr4) =>
              match fabricateEvent complete_event None p4 with
              | None => OutOfFuel
              | Some (p5, tr5) =>
                  Ok (p5, tr1 ++ Mutated (_triggerModules p2) (_moduleErrors p2)
                            :: tr3 ++ tr4 ++ tr5)
              end
          end
      end
  end.

(** *** Results handling *)

(** [array.sort(compare)], a stable sort: an element is moved behind
    another one only if [compare] is positive on them. *)
Fixpoint sort_insert (compare : string → string → Z) (x : string)
    (l : list string) : list string :=
  match l with
  | [] => [x]
  | y :: l' =>
      if decide (compare x y ≤ 0)%Z then x :: y :: l'
      else y :: sort_insert compare x l'
  end.

Definition array_sort (compare : string → string → Z) (l : list string)
    : list string :=
  foldr (sort_insert compare) [] l.

(** [this.modules[mod].constructor.displayOrder], for a module that has an
    instance. *)
Definition displayOrder_of (p : Parser) (mod' : string) : Z :=
  match modules p !! mod' with
  | Some module => displayOrder module
  | None => 0
  end.

(** The body of [displayOrder.forEach(mod => ...)]; [results] is the array
    being pushed to. An entry of [_moduleErrors] is an Error object, hence
    truthy. *)
Definition report_module (p : Parser) (acc : list ResultEntry * list Obs)
    (mod' : string) : list ResultEntry * list Obs :=
  let '(results, tr) := acc in
  match modules p !! mod' with
  | None => acc
  | Some module =>
      match _moduleErrors p !! mod' with
      | Some error =>
          (results ++ [mkResult (name module) (ErrorMessage error)], tr)
      | None =>
          match output module (heap p) with
          | Some o =>
              (results ++ [mkResult (name module) (Output o)],
               tr ++ [OutputCalled mod'])
          | None => (results, tr ++ [OutputCalled mod'])
          end
      end
  end.

(** [generateResults()]. Reading a property of a missing instance is a
    TypeError; the sort is in place on [moduleOrder]. *)
Definition generateResults (p : Parser)
    : result (Fatal * Parser * list Obs) (list ResultEntry * Parser * list Obs) :=
  match list_find (λ mod', modules p !! mod' = None) (moduleOrder p) with
  | Some (_, mod') => Throws (MissingInstance mod', p, [])
  | None =>
      let displayOrder :=
        array_sort (λ a b, displayOrder_of p a - displayOrder_of p b)%Z
                   (moduleOrder p) in
      let p1 := set_moduleOrder displayOrder p in
      let '(results, tr) := fold_left (report_module p1) displayOrder ([], []) in
      Ok (results, p1, tr)
  end.

(** *** Vocabulary for the statements *)

(** [a] declares [b]: the class registered as [a] lists [b] among its
    static [dependencies]. *)
Definition declares (reg : list (string * ModuleClass)) (a b : string) : Prop :=
  ∃ cls, (a, cls) ∈ reg ∧ b ∈ dependencies cls.

(** [a] depends on [b], directly or through other modules. *)
Definition depends_on (reg : list (string * ModuleClass)) : relation string :=
  tc (declares reg).

Definition acyclic (reg : list (string * ModuleClass)) : Prop :=
  ∀ x, ¬ depends_on reg x x.

(** Every declared dependency is itself a key of the registry. *)
Definition dependencies_registered (reg : list (string * ModuleClass)) : Prop :=
  Forall (λ kv, Forall (λ dep, dep ∈ nodes_of reg) (dependencies kv.2)) reg.

(** [a] occurs at an earlier index of [l] than [b]. *)
Definition before (l : list string) (a b : string) : Prop :=
  ∃ i j, l !! i = Some a ∧ l !! j = Some b ∧ i < j.

(** The value of [moduleOrder] that a call of [buildModules] leaves behind
    when it got as far as assigning it. *)
Definition order_after (r : result (Fatal * Parser * list Obs) (Parser * list Obs))
    : option (list string) :=
  match r with
  | Ok (p, _) => Some (moduleOrder p)
  | Throws (ConstructionFailed _, p, _) => Some (moduleOrder p)
  | _ => None
  end.

(** [a] is [b] or depends on it: the modules a failure of [b] takes out. *)
Definition affected_by (reg : list (string * ModuleClass)) (b a : string) : Prop :=
  a = b ∨ depends_on reg a b.

(** The modules whose [triggerEvent] a trace calls, in the order of the
    calls, and the same with the event each one is given. *)
Definition recipients (tr : list Obs) : list string :=
  flat_map (λ o, match o with Triggered m _ => [m] | _ => [] end) tr.

Definition deliveries (tr : list Obs) : list (string * Event) :=
  flat_map (λ o, match o with Triggered m e => [(m, e)] | _ => [] end) tr.

(** The successive values of [_triggerModules] and [_moduleErrors]. *)
Definition snapshots (tr : list Obs) : list (list string * gmap string ModuleError) :=
  flat_map (λ o, match o with Mutated l e => [(l, e)] | _ => [] end) tr.

Definition snapshot (p : Parser) : list string * gmap string ModuleError :=
  (_triggerModules p, _moduleErrors p).

(** No module is listed twice as live, and no live module has an entry in
    [_moduleErrors]. *)
Definition snapshot_ok (s : list string * gmap string ModuleError) : Prop :=
  NoDup s.1 ∧ ∀ m, m ∈ s.1 → s.2 !! m = None.

(** From [s] to [s'] modules were only removed from the live ones and
    entries only added to the errors. *)
Definition snapshot_step (s s' : list string * gmap string ModuleError) : Prop :=
  s'.1 `sublist_of` s.1 ∧ ∀ m, is_Some (s.2 !! m) → is_Some (s'.2 !! m).

(** Each snapshot of [l] is a step from the one before it, starting at
    [s], and is well formed. *)
Fixpoint chained (s : list string * gmap string ModuleError)
    (l : list (list string * gmap string ModuleError)) : Prop :=
  match l with
  | [] => True
  | s' :: l' => snapshot_step s s' ∧ snapshot_ok s' ∧ chained s' l'
  end.

(** The entry of [x] is a cascade error that names a module [x] declares
    as a dependency and that a failure of [b] takes out. *)
Definition cascaded_from (reg : list (string * ModuleClass)) (b : string)
    (errors : gmap string ModuleError) (x : string) : Prop :=
  ∃ dep, errors !! x = Some (DependencyCascadeError dep)
         ∧ declares reg x dep ∧ affected_by reg b dep.

(** The fields a run does not assign. *)
Definition same_setup (p p' : Parser) : Prop :=
  modules p' = modules p
  ∧ _constructors p' = _constructors p
  ∧ moduleOrder p' = moduleOrder p
  ∧ fight_start_time p' = fight_start_time p
  ∧ fight_end_time p' = fight_end_time p.

(** The state in which a successful [buildModules] leaves the parser (and
    which the trigger pass does not change): distinct keys, a
    [moduleOrder] that lists them all with dependencies first, and an
    instance for each. *)
Record built (p : Parser) : Prop := {
  built_keys : NoDup (nodes_of (_constructors p));
  built_order : moduleOrder p ≡ₚ nodes_of (_constructors p);
  built_dependencies :
    ∀ a b, declares (_constructors p) a b → before (moduleOrder p) b a;
  built_instances : ∀ m, m ∈ moduleOrder p → is_Some (modules p !! m);
}.

(** The entries of [_moduleErrors] hang together: a cascade error names a
    declared dependency that has an entry itself, and every module that
    declares a dependency with an entry has a cascade error. *)
Definition errors_ok (reg : list (string * ModuleClass))
    (errors : gmap string ModuleError) : Prop :=
  (∀ a dep, errors !! a = Some (DependencyCascadeError dep) →
            declares reg a dep ∧ is_Some (errors !! dep))
  ∧ (∀ b a, is_Some (errors !! b) → declares reg a b →
            ∃ dep, errors !! a = Some (DependencyCascadeError dep)).

(** The state of a parser during the trigger pass of a run. *)
Record running (p : Parser) : Prop := {
  running_built : built p;
  running_live : _triggerModules p `sublist_of` moduleOrder p;
  running_snapshot : snapshot_ok (snapshot p);
  running_errors : errors_ok (_constructors p) (_moduleErrors p);
}.

(** The modules that are out of the game after a trace, given those that
    were before it: each exception takes out the module that threw it and
    the modules that depend on it. *)
Fixpoint out_after (reg : list (string * ModuleClass)) (out : string → Prop)
    (tr : list Obs) : string → Prop :=
  match tr with
  | [] => out
  | Threw b _ :: tr' => out_after reg (λ m, out m ∨ affected_by reg b m) tr'
  | _ :: tr' => out_after reg out tr'
  end.

(** No module receives an event once it is out of the game. *)
Fixpoint isolates (reg : list (string * ModuleClass)) (out : string → Prop)
    (tr : list Obs) : Prop :=
  match tr with
  | [] => True
  | Triggered m _ :: tr' => ¬ out m ∧ isolates reg out tr'
  | Threw b _ :: tr' => isolates reg (λ m, out m ∨ affected_by reg b m) tr'
  | _ :: tr' => isolates reg out tr'
  end.

(** What holds of a stretch of the trigger pass that takes the parser from
    [p] to [p'] with trace [tr]. *)
Record stretch (p p' : Parser) (tr : list Obs) : Prop := {
  stretch_setup : same_setup p p';
  stretch_running : running p';
  stretch_step : snapshot_step (snapshot p) (snapshot p');
  stretch_chained : chained (snapshot p) (snapshots tr);
  stretch_last : default (snapshot p) (last (snapshots tr)) = snapshot p';
  stretch_recipients : ∀ m, m ∈ recipients tr → m ∈ _triggerModules p;
  stretch_isolates :
    ∀ out, (∀ m, out m → m ∉ _triggerModules p) →
      isolates (_constructors p) out tr
      ∧ ∀ m, out_after (_constructors p) out tr m → m ∉ _triggerModules p';
  stretch_threw :
    ∀ b x, Threw b x ∈ tr → is_Some (_moduleErrors p' !! b);
  stretch_explained :
    ∀ a, is_Some (_moduleErrors p' !! a) →
      is_Some (_moduleErrors p !! a)
      ∨ ∃ b x, Threw b x ∈ tr ∧ affected_by (_constructors p) b a;
}.

(** [tr] is one call of [normalise] per module of [order], in that order,
    the first on [input], each of the others on what the one before it
    returned, the last returning [output]. *)
Inductive normalise_chain : list Event → list string → list Obs → list Event → Prop :=
  | chain_done input : normalise_chain input [] [] input
  | chain_call input m mid order tr output :
      normalise_chain mid order tr output →
      normalise_chain input (m :: order) (Normalised m input mid :: tr) output.

Definition is_normalise (o : Obs) : Prop :=
  match o with Normalised _ _ _ => True | _ => False end.



(** The report of one module in the words of the specification: a module
    with a failure entry is reported by its name and an error placeholder;
    any other module is asked for its output and is reported by its name
    and that output if there is one, and not at all otherwise. *)
Definition report_entry (p : Parser) (mod' : string) : option ResultEntry :=
  match modules p !! mod' with
  | None => None
  | Some module =>
      match _moduleErrors p !! mod' with
      | Some error => Some (mkResult (name module) (ErrorMessage error))
      | None =>
          match output module (heap p) with
          | Some o => Some (mkResult (name module) (Output o))
          | None => None
          end
      end
  end.

(** The tie-break in the words of the specification: two modules with no
    dependency path between them stand in the build order as they stand in
    the registry. *)
Definition preserves_registration_order (p : Parser) : Prop :=
  ∀ order a b,
    order_after (buildModules p) = Some order →
    before (nodes_of (_constructors p)) a b →
    ¬ depends_on (_constructors p) a b →
    ¬ depends_on (_constructors p) b a →
    before order a b.

(** Every module of [moduleOrder] has an instance. *)
Definition instantiated (p : Parser) : Prop :=
  Forall (λ m, is_Some (modules p !! m)) (moduleOrder p).

(** Every entry of [E'] was in [E] already, or is the error that the
    module threw in [tr], or is a cascade error. *)
Definition entries_from (tr : list Obs) (E E' : gmap string ModuleError) : Prop :=
  ∀ m e, E' !! m = Some e →
    E !! m = Some e
    ∨ (∃ x, e = RuntimeError x ∧ Threw m x ∈ tr)
    ∨ (∃ dep, e = DependencyCascadeError dep).

(** No module throws once it is out of the game. *)
Fixpoint throws_once (reg : list (string * ModuleClass)) (out : string → Prop)
    (tr : list Obs) : Prop :=
  match tr with
  | [] => True
  | Threw b _ :: tr' =>
      ¬ out b ∧ throws_once reg (λ m, out m ∨ affected_by reg b m) tr'
  | _ :: tr' => throws_once reg out tr'
  end.

(** What holds, besides [stretch], of a stretch of the trigger pass: where
    the entries of [_moduleErrors] come from, that an exception follows a
    call, and that no module throws after it was taken out. *)
Definition orderly (p p' : Parser) (tr : list Obs) : Prop :=
  entries_from tr (_moduleErrors p) (_moduleErrors p')
  ∧ (∀ b x, Threw b x ∈ tr → b ∈ recipients tr)
  ∧ (∀ out, (∀ m, out m → m ∉ _triggerModules p) →
            throws_once (_constructors p) out tr).
End Engine.

(** ** Concrete modules

    A host whose store counts the events handled so far, and module classes
    that differ in their dependencies, their display order, the types of
    event on which [triggerEvent] throws, and whether [output()] returns
    something. *)
Module Demo.

Definition host : Host :=
  {| store := nat; exn := string; markup := string; data := unit |}.

Definition module_class (name' : string) (deps : list string) (order : Z)
    (throws_on : list string) (reports : bool) : @ModuleClass host :=
  @mkModuleClass host deps order name'
    (λ h, Some h)
    (λ events h, Some (events, h))
    (λ event h,
       (if decide (type event ∈ throws_on) then Some "boom" else None, S h))
    (λ h, if reports then Some name' else None).

Definition parser (reg : list (string * @ModuleClass host)) : @Parser host :=
  @new_Parser host reg 0 1000 0.

Definition event (type' : string) (timestamp' : Z) : @Event host :=
  @mkEvent host type' timestamp' None false [].

(** A new parser after [buildModules()]. *)
Definition built_parser (reg : list (string * @ModuleClass host)) : @Parser host :=
  match buildModules (parser reg) with
  | Ok (p, _) => p
  | _ => parser reg
  end.

(** The parser and the trace that [parseEvents(events)] leaves on it. *)
Definition final (reg : list (string * @ModuleClass host)) (events : list (@Event host))
    : @Parser host :=
  match parseEvents events (built_parser reg) with
  | Ok (p', _) => p'
  | _ => built_parser reg
  end.

Definition trace (reg : list (string * @ModuleClass host)) (events : list (@Event host))
    : list (@Obs host) :=
  match parseEvents events (built_parser reg) with
  | Ok (_, tr) => tr
  | _ => []
  end.

(** The boundary events as a run with the clock at [t] fabricates them. *)
Definition init_at (t : Z) : @Event host := @mkEvent host "init" t None true [].
Definition complete_at (t : Z) : @Event host := @mkEvent host "complete" t None true [].

(** Event sequences: one event, two events, and two events of which the
    second lies after the end of the fight. *)
Definition one_cast : list (@Event host) := [event "cast" 5].
Definition two_casts : list (@Event host) := [event "cast" 5; event "cast" 7].
Definition past_the_end : list (@Event host) := [event "cast" 5; event "tick" 2000].

(** Two modules that have nothing to do with each other. *)
Definition independent : list (string * @ModuleClass host) :=
  [("a", module_class "A" [] 0 [] true);
   ("b", module_class "B" [] 0 [] true)].

(** The same, with the second one throwing on the [init] event. *)
Definition independent_faulty : list (string * @ModuleClass host) :=
  [("a", module_class "A" [] 0 [] true);
   ("b", module_class "B" [] 0 ["init"] true)].

(** [a] depends on [m], which depends on [b]. *)
Definition chain : list (string * @ModuleClass host) :=
  [("a", module_class "A" ["m"] 0 [] true);
   ("m", module_class "M" ["b"] 0 [] true);
   ("b", module_class "B" [] 0 [] true)].

(** The same, with [b] throwing on events of type "cast". *)
Definition chain_faulty : list (string * @ModuleClass host) :=
  [("a", module_class "A" ["m"] 0 [] true);
   ("m", module_class "M" ["b"] 0 [] true);
   ("b", module_class "B" [] 0 ["cast"] true)].


(** [a] and [b] depend on each other. *)
Definition cyclic : list (string * @ModuleClass host) :=
  [("a", module_class "A" ["b"] 0 [] true);
   ("b", module_class "B" ["a"] 0 [] true)].

(** [a] depends on [c]; [b] stands between them in the registry and has
    nothing to do with either. *)
Definition crossing : list (string * @ModuleClass host) :=
  [("a", module_class "A" ["c"] 0 [] true);
   ("b", module_class "B" [] 0 [] true);
   ("c", module_class "C" [] 0 [] true)].

(** [b] and [c] depend on [a], [c] also on [b]; [d] depends on nothing and
    nothing depends on it; [a] throws on the [init] event. *)
Definition diamond : list (string * @ModuleClass host) :=
  [("d", module_class "D" [] 0 [] true);
   ("c", module_class "C" ["a"; "b"] 0 [] true);
   ("b", module_class "B" ["a"] 0 [] true);
   ("a", module_class "A" [] 0 ["init"] true)].

(** Display orders that differ from the build order, one module without
    output and one that throws. *)
Definition mixed : list (string * @ModuleClass host) :=
  [("a", module_class "A" [] 20 [] true);
   ("b", module_class "B" ["a"] 10 [] false);
   ("c", module_class "C" [] 10 ["cast"] true);
   ("d", module_class "D" [] 10 [] true)].

(** A class whose constructor throws. *)
Definition broken_class (name' : string) (deps : list string) : @ModuleClass host :=
  @mkModuleClass host deps 0 name'
    (λ h, None)
    (λ events h, Some (events, h))
    (λ event h, (None, S h))
    (λ h, Some name').

(** [a] declares a dependency that nobody registered. *)
Definition dangling : list (string * @ModuleClass host) :=
  [("a", module_class "A" ["ghost"] 0 [] true);
   ("b", module_class "B" [] 0 [] true)].

(** [a] depends on [m], which depends on [b]; the constructor of [m]
    throws. *)
Definition chain_broken : list (string * @ModuleClass host) :=
  [("a", module_class "A" ["m"] 0 [] true);
   ("m", broken_class "M" ["b"]);
   ("b", module_class "B" [] 0 [] true)].

(** The parser that a [buildModules()] that throws leaves behind. *)
Definition failed_build (reg : list (string * @ModuleClass host)) : @Parser host :=
  match buildModules (parser reg) with
  | Throws (_, p', _) => p'
  | _ => parser reg
  end.

End Demo.

(** * Facts about the resolver *)

Section toposort_facts.
Variable nodes : list string.
Variable edges : list (string * string).

Lemma elem_of_outgoingEdges node child :
  child ∈ (Toposort.outgoingEdges edges) node ↔ (edge edges) node child.
Proof.
  unfold Toposort.outgoingEdges, edge.
  cut (∀ acc : list string,
         child ∈ fold_left
           (λ out e, if decide (e.1 = node)
                     then if decide (e.2 ∈ out) then out else out ++ [e.2]
                     else out) edges acc
         ↔ child ∈ acc ∨ (node, child) ∈ edges).
  { intros Hcut. rewrite Hcut. rewrite elem_of_nil. tauto. }
  induction edges as [|[a b] es IH]; intros acc; simpl.
  - rewrite elem_of_nil. tauto.
  - rewrite IH, elem_of_cons. clear IH.
    destruct (decide (a = node)) as [-> |Hne].
    + destruct (decide (b ∈ acc)) as [Hin|Hnin].
      * split; [tauto|]. intros [?|[Heq|?]]; auto.
        simplify_eq/=; auto.
      * rewrite elem_of_app, list_elem_of_singleton.
        split; [intros [[?| ->]|?]; auto|].
        intros [?|[Heq|?]]; auto. simplify_eq/=; auto.
    + split; [tauto|]. intros [?|[Heq|?]]; auto. congruence.
Qed.

Lemma closed_order_split l l1 a l2 b :
  (closed_order edges) l → l = l1 ++ a :: l2 → (edge edges) a b → b ∈ l2.
Proof.
  revert l1. induction l as [|x l IH]; intros l1 Hc Heq Hab.
  - by destruct l1.
  - destruct Hc as [Hx Hc]. destruct l1 as [|y l1]; simplify_eq/=; eauto.
Qed.

Lemma closed_order_tc l a b :
  (closed_order edges) l → tc (edge edges) a b → ∀ l1 l2, l = l1 ++ a :: l2 → b ∈ l2.
Proof.
  intros Hc. induction 1 as [a b Hab|a c b Hac _ IH]; intros l1 l2 Heq.
  - eauto using closed_order_split.
  - pose proof (closed_order_split _ _ _ _ _ Hc Heq Hac) as Hin.
    apply list_elem_of_split in Hin as (l3 & l4 & ->).
    specialize (IH (l1 ++ a :: l3) l4).
    rewrite <- app_assoc in IH. specialize (IH Heq).
    rewrite elem_of_app, elem_of_cons. auto.
Qed.

(** A list in closed order that holds the sources of all edges, each once,
    witnesses that the graph has no cycle. *)
Lemma closed_order_acyclic l :
  NoDup l → (closed_order edges) l → (∀ a b, (edge edges) a b → a ∈ l) →
  ∀ x, ¬ tc (edge edges) x x.
Proof.
  intros Hnd Hc Hsrc x Hx.
  assert (x ∈ l) as Hin.
  { inversion Hx; eauto. }
  apply list_elem_of_split in Hin as (l1 & l2 & ->).
  pose proof (closed_order_tc _ _ _ Hc Hx l1 l2 eq_refl) as Hin.
  apply NoDup_app in Hnd as (_ & _ & Hnd).
  by apply NoDup_cons in Hnd as [? _].
Qed.

Lemma extends_refl s : extends s s.
Proof. split; auto. Qed.

Lemma extends_trans s1 s2 s3 : extends s1 s2 → extends s2 s3 → extends s1 s3.
Proof. intros [? ?] [? ?]. split; [set_solver|auto]. Qed.

Lemma each_sound (f : string → Toposort.State → result Toposort.Error Toposort.State)
    (I : Toposort.State → Prop) :
  (∀ x s s', I s → f x s = Ok s' → I s' ∧ extends s s' ∧ x ∈ Toposort.sorted s') →
  ∀ l s s', I s → Toposort.each f l s = Ok s' →
    I s' ∧ extends s s' ∧ ∀ x, x ∈ l → x ∈ Toposort.sorted s'.
Proof.
  intros Hf. induction l as [|x l IH]; intros s s' HI Hrun; simpl in Hrun.
  - simplify_eq. split_and!; auto using extends_refl. by intros ? ?%elem_of_nil.
  - destruct (f x s) as [s1| |] eqn:Hx; try done.
    destruct (Hf _ _ _ HI Hx) as (HI1 & Hext1 & Hin1).
    destruct (IH _ _ HI1 Hrun) as (HI' & Hext' & Hin').
    split_and!; eauto using extends_trans.
    intros y [-> |Hy]%elem_of_cons; [by apply Hext'|auto].
Qed.

Lemma visit_sound fuel : ∀ node P s s',
  (visit_inv nodes edges) P s → (Toposort.visit nodes edges) fuel node P s = Ok s' →
  (visit_inv nodes edges) P s' ∧ extends s s' ∧ node ∈ Toposort.sorted s'.
Proof.
  induction fuel as [|fuel IH]; intros node P s s' Hinv Hrun; [done|].
  simpl in Hrun.
  destruct (decide (node ∈ P)) as [|HnP]; [done|].
  destruct (decide (node ∈ nodes)) as [Hnode|]; [|done].
  destruct (decide (node ∈ Toposort.visited s)) as [Hv|Hnv].
  { simplify_eq. split_and!; auto using extends_refl.
    destruct (inv_visited _ _ _ _ Hinv _ Hv); done. }
  destruct (Toposort.each _ _ _) as [s2| |] eqn:Hch; simplify_eq.
  apply (each_sound _ ((visit_inv nodes edges) ({[node]} ∪ P))) in Hch
    as (Hinv2 & [Hext2v Hext2s] & Hch); [|by eauto|].
  2:{ destruct Hinv as [Hi1 Hi2 Hi3 Hi4]. split; simpl; auto.
      - intros x Hx. destruct (Hi3 _ Hx) as (? & ? & ?).
        split_and!; [set_solver|done|].
        assert (x ≠ node) by (intros ->; done). set_solver.
      - intros x Hx. apply elem_of_union in Hx as [Hx|Hx]; [set_solver|].
        destruct (Hi4 _ Hx); [auto|set_solver]. }
  simpl in *. destruct Hinv2 as [Hi1 Hi2 Hi3 Hi4].
  assert (node ∉ Toposort.sorted s2) as Hfresh.
  { intros Hin. destruct (Hi3 _ Hin) as (_ & _ & HP). set_solver. }
  split_and!.
  - split; simpl.
    + by apply NoDup_cons.
    + split; [|done]. intros b Hb. apply Hch.
      rewrite elem_of_reverse. by apply elem_of_outgoingEdges.
    + intros x [-> |Hx]%elem_of_cons.
      * split_and!; [set_solver|done|done].
      * destruct (Hi3 _ Hx) as (? & ? & ?). split_and!; [done|done|set_solver].
    + intros x Hx. rewrite elem_of_cons.
      destruct (Hi4 _ Hx) as [?|[?%elem_of_singleton|?]%elem_of_union]; auto.
  - split; simpl; [set_solver|]. intros x Hx. rewrite elem_of_cons. auto.
  - simpl. apply elem_of_cons; auto.
Qed.

(** The recursion of [visit] is never cut off when the fuel exceeds the
    number of nodes not yet visited. *)
Lemma each_visited_mono (f : string → Toposort.State → result Toposort.Error Toposort.State) :
  (∀ x s s', f x s = Ok s' → Toposort.visited s ⊆ Toposort.visited s') →
  ∀ l s s', Toposort.each f l s = Ok s' → Toposort.visited s ⊆ Toposort.visited s'.
Proof.
  intros Hf. induction l as [|x l IH]; intros s s' Hrun; simpl in Hrun.
  - by simplify_eq.
  - destruct (f x s) as [s1| |] eqn:Hx; try done.
    etrans; [by eapply Hf|by eapply IH].
Qed.

Lemma visit_visited_mono fuel : ∀ node P s s',
  (Toposort.visit nodes edges) fuel node P s = Ok s' → Toposort.visited s ⊆ Toposort.visited s'.
Proof.
  induction fuel as [|fuel IH]; intros node P s s' Hrun; [done|].
  simpl in Hrun.
  destruct (decide (node ∈ P)); [done|].
  destruct (decide (node ∈ nodes)); [|done].
  destruct (decide (node ∈ Toposort.visited s)); [by simplify_eq|].
  destruct (Toposort.each _ _ _) as [s2| |] eqn:Hch; simplify_eq.
  apply each_visited_mono in Hch; [|by eauto]. simpl in *. set_solver.
Qed.

Lemma unvisited_mono s s' :
  Toposort.visited s ⊆ Toposort.visited s' → (unvisited nodes) s' ≤ (unvisited nodes) s.
Proof. intros Hsub. unfold unvisited. apply subseteq_size. set_solver. Qed.

Lemma unvisited_mark node s :
  node ∈ nodes → node ∉ Toposort.visited s →
  (unvisited nodes) (Toposort.mkState ({[node]} ∪ Toposort.visited s) (Toposort.sorted s))
  < (unvisited nodes) s.
Proof.
  intros Hin Hnv. unfold unvisited. apply subset_size. simpl.
  split; [set_solver|]. intros Hsub.
  assert (node ∈ (list_to_set nodes ∖ Toposort.visited s : gset string)) as Hx
    by set_solver.
  apply Hsub in Hx. set_solver.
Qed.

Lemma each_fuel (f : string → Toposort.State → result Toposort.Error Toposort.State) (n : nat) :
  (∀ x s, (unvisited nodes) s < n → f x s ≠ OutOfFuel) →
  (∀ x s s', f x s = Ok s' → Toposort.visited s ⊆ Toposort.visited s') →
  ∀ l s, (unvisited nodes) s < n → Toposort.each f l s ≠ OutOfFuel.
Proof.
  intros Hf Hmono. induction l as [|x l IH]; intros s Hs; simpl; [done|].
  destruct (f x s) as [s1| |] eqn:Hx; [|done|by destruct (Hf x s)].
  apply IH. apply Hmono, unvisited_mono in Hx. lia.
Qed.

Lemma visit_fuel fuel : ∀ node P s,
  (unvisited nodes) s < fuel → (Toposort.visit nodes edges) fuel node P s ≠ OutOfFuel.
Proof.
  induction fuel as [|fuel IH]; intros node P s Hs; [lia|].
  simpl.
  destruct (decide (node ∈ P)); [done|].
  destruct (decide (node ∈ nodes)) as [Hnode|]; [|done].
  destruct (decide (node ∈ Toposort.visited s)) as [|Hnv]; [done|].
  destruct (Toposort.each _ _ _) as [s2| |] eqn:Hch; try done.
  exfalso. revert Hch. apply each_fuel with (n := fuel).
  - intros; by apply IH.
  - intros; by eapply visit_visited_mono.
  - pose proof (unvisited_mark node s Hnode Hnv). lia.
Qed.

Lemma array_unfold :
  Toposort.array nodes edges =
    if decide (Forall (λ e, e.1 ∈ nodes ∧ e.2 ∈ nodes) edges) then
      match Toposort.each (top_visit nodes edges) (reverse nodes) (Toposort.mkState ∅ []) with
      | Ok s => Ok (Toposort.sorted s)
      | Throws e => Throws e
      | OutOfFuel => OutOfFuel
      end
    else Throws Toposort.UnknownNode.
Proof. reflexivity. Qed.

(** What [toposort.array] returns lists every node once, each before the
    targets of its edges. *)
Lemma array_sound l :
  NoDup nodes → Toposort.array nodes edges = Ok l →
  l ≡ₚ nodes ∧ (closed_order edges) l.
Proof.
  intros Hnd. rewrite array_unfold.
  destruct (decide _) as [_|]; [|done].
  destruct (Toposort.each _ _ _) as [s| |] eqn:Hrun; intros; simplify_eq.
  apply (each_sound _ ((visit_inv nodes edges) ∅)) in Hrun as (Hinv & _ & Hall).
  - split; [|by destruct Hinv].
    apply NoDup_Permutation; [by destruct Hinv|done|].
    intros x. split; [intros Hx; by destruct (inv_sorted _ _ _ _ Hinv _ Hx) as (_ & ? & _)|].
    intros Hx. by apply Hall, elem_of_reverse.
  - intros x s1 s2 Hinv1 Hx. unfold top_visit in Hx.
    destruct (decide (x ∈ Toposort.visited s1)) as [Hv|_].
    + simplify_eq. split_and!; auto using extends_refl.
      destruct (inv_visited _ _ _ _ Hinv1 _ Hv); set_solver.
    + by eapply visit_sound.
  - split; simpl; [constructor|done| |set_solver]. by intros ? ?%elem_of_nil.
Qed.

Lemma array_fuel :
  NoDup nodes → Toposort.array nodes edges ≠ OutOfFuel.
Proof.
  intros Hnd. rewrite array_unfold.
  destruct (decide _) as [_|]; [|done].
  destruct (Toposort.each _ _ _) as [s| |] eqn:Hrun; try done.
  exfalso. revert Hrun.
  assert (∀ s, (unvisited nodes) s < S (length nodes)) as Hbound.
  { intros s'. unfold unvisited.
    rewrite <- (size_list_to_set (C := gset string) nodes Hnd).
    apply Nat.lt_succ_r, subseteq_size. set_solver. }
  apply each_fuel with (n := S (length nodes)); [| |done].
  - intros x s' _. unfold top_visit. destruct (decide _); [done|].
    by apply visit_fuel.
  - intros x s1 s2. unfold top_visit. destruct (decide _); [by intros; simplify_eq|].
    apply visit_visited_mono.
Qed.

(** Without edges the nodes come back as they were given. *)
Lemma array_no_edges :
  edges = [] → NoDup nodes → Toposort.array nodes edges = Ok nodes.
Proof.
  intros Hedges Hnd. rewrite array_unfold.
  destruct (decide _) as [_|Hno]; [|destruct Hno; rewrite Hedges; constructor].
  assert (∀ l s, NoDup l → (∀ x, x ∈ l → x ∈ nodes ∧ x ∉ Toposort.visited s) →
            ∃ v, Toposort.each (top_visit nodes edges) l s
                 = Ok (Toposort.mkState v (reverse l ++ Toposort.sorted s))
                 ∧ ∀ x, x ∈ v ↔ x ∈ l ∨ x ∈ Toposort.visited s) as Hloop.
  { induction l as [|x l IH]; intros s Hl Hfresh; simpl.
    - exists (Toposort.visited s). destruct s. split; [done|]. set_solver.
    - apply NoDup_cons in Hl as [Hx Hl].
      destruct (Hfresh x) as [Hxn Hxv]; [by left|].
      unfold top_visit at 1. rewrite decide_False by done. simpl.
      rewrite decide_False by set_solver. rewrite decide_True by done.
      rewrite decide_False by done.
      unfold Toposort.outgoingEdges. rewrite Hedges. simpl.
      edestruct (IH (Toposort.mkState ({[x]} ∪ Toposort.visited s) (x :: Toposort.sorted s)))
        as (v & Hrun & Hv); [done| |].
      { intros y Hy. destruct (Hfresh y) as [? ?]; [by right|].
        split; [done|]. simpl. set_solver. }
      exists v. split.
      + rewrite Hedges in Hrun. rewrite Hrun. simpl.
        by rewrite reverse_cons, <- app_assoc.
      + intros y. rewrite Hv. simpl. set_solver. }
  destruct (Hloop (reverse nodes) (Toposort.mkState ∅ [])) as (v & -> & _).
  - by rewrite reverse_Permutation.
  - intros x Hx. rewrite elem_of_reverse in Hx. split; [done|]. simpl. set_solver.
  - simpl. by rewrite reverse_involutive, app_nil_r.
Qed.

(** The only exception of the traversal of a graph whose edges stay among
    the nodes is the one for a cycle, and the node it names lies on one. *)
Hypothesis edges_known : Forall (λ e, e.1 ∈ nodes ∧ e.2 ∈ nodes) edges.

Lemma edge_target a b : (edge edges) a b → b ∈ nodes.
Proof.
  intros Hab. rewrite Forall_forall in edges_known.
  by destruct (edges_known _ Hab).
Qed.


Lemma each_throws (f : string → Toposort.State → result Toposort.Error Toposort.State)
    (Q : Toposort.Error → Prop) :
  ∀ l, (∀ x s e, x ∈ l → f x s = Throws e → Q e) →
  ∀ s e, Toposort.each f l s = Throws e → Q e.
Proof.
  induction l as [|x l IH]; intros Hf s e Hrun; simpl in Hrun; [done|].
  destruct (f x s) as [s1| |] eqn:Hx; try done.
  - eapply IH; [|done]. intros; eapply Hf; [|done]. by apply list_elem_of_further.
  - simplify_eq. eapply Hf; [|done]. apply list_elem_of_here.
Qed.

Lemma visit_throws fuel : ∀ node P s e,
  node ∈ nodes → (∀ p, p ∈ P → tc (edge edges) p node) →
  (Toposort.visit nodes edges) fuel node P s = Throws e →
  ∃ x, e = Toposort.CyclicDependency x ∧ tc (edge edges) x x.
Proof.
  induction fuel as [|fuel IH]; intros node P s e Hnode HP Hrun; [done|].
  simpl in Hrun.
  destruct (decide (node ∈ P)) as [Hin|_]; [simplify_eq; eauto|].
  destruct (decide (node ∈ nodes)); [|done].
  destruct (decide (node ∈ Toposort.visited s)); [done|].
  destruct (Toposort.each _ _ _) as [s2|e'|] eqn:Hch; try done.
  injection Hrun as ->. revert Hch.
  apply (each_throws _ (λ e, ∃ x, e = Toposort.CyclicDependency x ∧ tc (edge edges) x x)).
  intros child s' e' Hchild Hvisit.
  rewrite elem_of_reverse, elem_of_outgoingEdges in Hchild.
  eapply IH; [by eapply edge_target| |done].
  intros p [->%elem_of_singleton|Hp]%elem_of_union.
  - by apply tc_once.
  - eapply tc_r; eauto.
Qed.

Lemma array_throws e :
  Toposort.array nodes edges = Throws e →
  ∃ x, e = Toposort.CyclicDependency x ∧ tc (edge edges) x x.
Proof.
  rewrite array_unfold. destruct (decide _) as [_|]; [|done].
  destruct (Toposort.each _ _ _) as [s|e'|] eqn:Hrun; intros; simplify_eq.
  revert Hrun.
  apply (each_throws _ (λ e, ∃ x, e = Toposort.CyclicDependency x ∧ tc (edge edges) x x)).
  intros x s0 e0 Hx. rewrite elem_of_reverse in Hx. unfold top_visit.
  destruct (decide _); [done|]. apply visit_throws; [done|set_solver].
Qed.

(** A graph without cycles is sorted; for a graph with a cycle the
    exception for cycles is thrown. *)
Lemma array_acyclic :
  NoDup nodes → (∀ x, ¬ tc (edge edges) x x) → ∃ l, Toposort.array nodes edges = Ok l.
Proof.
  intros Hnd Hacyc.
  destruct (Toposort.array nodes edges) as [l|e|] eqn:Hrun; [by eauto| |].
  - apply array_throws in Hrun as (x & _ & Hx). by destruct (Hacyc x).
  - by destruct (array_fuel Hnd).
Qed.

End toposort_facts.

(** [toposort.array] on small graphs. *)

Example toposort_no_edges :
  Toposort.array ["a"; "b"; "c"] [] = Ok ["a"; "b"; "c"].
Proof. vm_compute. reflexivity. Qed.

Example toposort_chain :
  Toposort.array ["a"; "b"; "c"] [("a", "b"); ("b", "c")] = Ok ["a"; "b"; "c"].
Proof. vm_compute. reflexivity. Qed.

Example toposort_mixed :
  Toposort.array ["a"; "b"; "c"] [("c", "a")] = Ok ["b"; "c"; "a"].
Proof. vm_compute. reflexivity. Qed.

Example toposort_cycle :
  Toposort.array ["a"; "b"] [("a", "b"); ("b", "a")]
  = Throws (Toposort.CyclicDependency "b").
Proof. vm_compute. reflexivity. Qed.

(** * Facts about [buildModules] *)

Section build_facts.
Context {H : Host}.
Implicit Types (reg : list (string * ModuleClass)) (p : Parser).

Lemma elem_of_edges_of reg a b :
  (a, b) ∈ edges_of reg ↔ declares reg a b.
Proof.
  unfold edges_of, declares. rewrite list_elem_of_In, in_flat_map. split.
  - intros ([k cls] & Hkv & Hin). simpl in Hin.
    apply in_map_iff in Hin as (dep & Heq & Hdep). simplify_eq.
    exists cls. by rewrite !list_elem_of_In.
  - intros (cls & Hkv & Hdep). exists (a, cls). rewrite <- list_elem_of_In.
    split; [done|]. simpl. apply in_map. by apply list_elem_of_In.
Qed.

Lemma depends_on_edges reg a b :
  depends_on reg a b ↔ tc (edge (edges_of reg)) a b.
Proof.
  unfold depends_on. split; apply tc_congruence with (f := id);
    intros x y; unfold edge; by rewrite elem_of_edges_of.
Qed.

Lemma declares_registered reg a b : declares reg a b → a ∈ nodes_of reg.
Proof.
  intros (cls & Hin & _). unfold nodes_of. apply list_elem_of_fmap.
  by exists (a, cls).
Qed.

Lemma edges_known reg :
  dependencies_registered reg →
  Forall (λ e, e.1 ∈ nodes_of reg ∧ e.2 ∈ nodes_of reg) (edges_of reg).
Proof.
  intros Hreg. apply Forall_forall. intros [a b] Hab. simpl.
  apply elem_of_edges_of in Hab. split; [by eapply declares_registered|].
  destruct Hab as (cls & Hin & Hdep).
  unfold dependencies_registered in Hreg. rewrite Forall_forall in Hreg.
  specialize (Hreg _ Hin). rewrite Forall_forall in Hreg. by apply Hreg.
Qed.

Lemma before_reverse l a b : before l a b → before (reverse l) b a.
Proof.
  intros (i & j & Hi & Hj & Hij).
  pose proof (lookup_lt_Some _ _ _ Hi). pose proof (lookup_lt_Some _ _ _ Hj).
  exists (length l - S j), (length l - S i). split_and!; [| |lia].
  - rewrite reverse_lookup by lia. rewrite <- Hj. f_equal. lia.
  - rewrite reverse_lookup by lia. rewrite <- Hi. f_equal. lia.
Qed.

Lemma before_split l1 a l2 b : b ∈ l2 → before (l1 ++ a :: l2) a b.
Proof.
  intros (j & Hj)%list_elem_of_lookup.
  exists (length l1), (length l1 + S j). split_and!; [| |lia].
  - by rewrite list_lookup_middle.
  - rewrite lookup_app_r by lia.
    replace (length l1 + S j - length l1) with (S j) by lia. done.
Qed.

Lemma before_irrefl l a : NoDup l → ¬ before l a a.
Proof.
  intros Hnd (i & j & Hi & Hj & Hij).
  pose proof (NoDup_lookup _ _ _ _ Hnd Hi Hj). lia.
Qed.

(** What a successful resolution says about the registry and the order. *)
Lemma resolution_sound reg sorted :
  NoDup (nodes_of reg) →
  Toposort.array (nodes_of reg) (edges_of reg) = Ok sorted →
  reverse sorted ≡ₚ nodes_of reg
  ∧ (∀ a b, declares reg a b → before (reverse sorted) b a)
  ∧ acyclic reg.
Proof.
  intros Hnd Hrun. apply array_sound in Hrun as [Hperm Hclosed]; [|done].
  assert (NoDup sorted) as Hnds by by rewrite Hperm.
  split_and!.
  - by rewrite reverse_Permutation.
  - intros a b Hab. apply before_reverse.
    assert (a ∈ sorted) as Ha.
    { rewrite Hperm. by eapply declares_registered. }
    apply list_elem_of_split in Ha as (l1 & l2 & ->).
    apply before_split. eapply closed_order_split; [done..|].
    by apply elem_of_edges_of.
  - intros x Hx%depends_on_edges.
    eapply closed_order_acyclic; [exact Hnds|exact Hclosed| |exact Hx].
    intros a b Hab%elem_of_edges_of. rewrite Hperm.
    by eapply declares_registered.
Qed.

Lemma constructor_of_Some reg m :
  m ∈ nodes_of reg → is_Some (constructor_of reg m).
Proof.
  induction reg as [|[k cls] reg IH]; simpl.
  - by intros ?%elem_of_nil.
  - intros [->|Hin]%elem_of_cons; destruct (decide _); eauto; done.
Qed.

(** The loop that builds the instances touches nothing but [modules] and
    the store. *)
Lemma initialise_Ok order : ∀ p p' tr,
  initialise order p = Ok (p', tr) →
  tr = Constructed <$> order
  ∧ moduleOrder p' = moduleOrder p
  ∧ _constructors p' = _constructors p
  ∧ _triggerModules p' = _triggerModules p
  ∧ _moduleErrors p' = _moduleErrors p
  ∧ (∀ m, m ∈ order → is_Some (modules p' !! m))
  ∧ (∀ m, is_Some (modules p !! m) → is_Some (modules p' !! m)).
Proof.
  induction order as [|m order IH]; intros p p' tr Hrun; simpl in Hrun.
  - simplify_eq. split_and!; auto. by intros ? ?%elem_of_nil.
  - destruct (constructor_of _ m) as [cls|]; [|done].
    destruct (construct cls (heap p)) as [h|]; [|done].
    destruct (initialise order _) as [[p2 tr2]|[[e p2] tr2]|] eqn:Hrest; simplify_eq.
    apply IH in Hrest as (-> & ? & ? & ? & ? & Hnew & Hold). simpl in *.
    split_and!; auto.
    + intros m' [->|Hin]%elem_of_cons; [|by auto].
      apply Hold. rewrite lookup_insert_eq. eauto.
    + intros m' Hm'. apply Hold. rewrite lookup_insert.
      destruct (decide _); eauto.
Qed.

Lemma initialise_order order : ∀ p,
  (∀ m, m ∈ order → m ∈ nodes_of (_constructors p)) →
  order_after (initialise order p) = Some (moduleOrder p).
Proof.
  induction order as [|m order IH]; intros p Hreg; simpl; [done|].
  destruct (constructor_of_Some (_constructors p) m) as [cls ->];
    [apply Hreg; by left|].
  destruct (construct cls (heap p)) as [h|]; [|done].
  specialize (IH (set_modules (<[m:=cls]> (modules p)) (set_heap h p))).
  destruct (initialise order _) as [[p2 tr2]|[[e p2] tr2]|]; simpl in *.
  - apply IH. intros; apply Hreg; by right.
  - destruct e; try (discriminate IH; intros; apply Hreg; by right).
    apply IH. intros; apply Hreg; by right.
  - discriminate IH. intros; apply Hreg; by right.
Qed.

Lemma buildModules_built p p' tr :
  NoDup (nodes_of (_constructors p)) →
  buildModules p = Ok (p', tr) →
  built p' ∧ _constructors p' = _constructors p
  ∧ _moduleErrors p' = _moduleErrors p
  ∧ tr = Constructed <$> moduleOrder p'.
Proof.
  intros Hnd. unfold buildModules.
  destruct (Toposort.array _ _) as [sorted| |] eqn:Hsort; try done.
  intros (-> & Hord & Hreg & _ & Herr & Hinst & _)%initialise_Ok. simpl in *.
  destruct (resolution_sound _ _ Hnd Hsort) as (Hperm & Hdeps & _).
  rewrite Hord, Hreg. split_and!; try done. split; rewrite ?Hord, ?Hreg; auto.
Qed.

(** ** C4 *)

(** C4. For a registry with distinct keys whose dependencies are all
    registered and form no cycle, [buildModules] assigns a [moduleOrder] in
    which every declared dependency stands at an earlier index than the
    module declaring it, and in which every registered key occurs exactly
    once. *)
Theorem buildModules_dependencies_first p :
  NoDup (nodes_of (_constructors p)) →
  dependencies_registered (_constructors p) →
  acyclic (_constructors p) →
  ∃ order,
    order_after (buildModules p) = Some order
    ∧ (∀ a b, declares (_constructors p) a b → before order b a)
    ∧ NoDup order
    ∧ (∀ m, m ∈ order ↔ m ∈ nodes_of (_constructors p)).
Proof.
  intros Hnd Hreg Hacyc.
  destruct (array_acyclic (nodes_of (_constructors p)) (edges_of (_constructors p)))
    as [sorted Hsort]; [by apply edges_known|done| |].
  { intros x Hx%depends_on_edges. by apply (Hacyc x). }
  destruct (resolution_sound _ _ Hnd Hsort) as (Hperm & Hdeps & _).
  exists (reverse sorted). unfold buildModules. rewrite Hsort. split_and!.
  - rewrite initialise_order; [done|]. simpl. intros m. by rewrite Hperm.
  - done.
  - by rewrite Hperm.
  - intros m. by rewrite Hperm.
Qed.

(** ** C5 *)


(** ** C9 *)

Lemma edges_of_no_dependencies reg :
  Forall (λ kv, dependencies kv.2 = []) reg → edges_of reg = [].
Proof.
  unfold edges_of. induction 1 as [|[k cls] reg Hd _ IH]; simpl; [done|].
  simpl in Hd. by rewrite Hd, IH.
Qed.

(** C9, as it holds. For a registry with distinct keys the build order is a
    function of the registry: parsers with the same registry get the same
    order. It is not the order of registration: for a registry in which no
    module declares a dependency it is the reverse of it. *)
Theorem buildModules_reverses_registration p :
  NoDup (nodes_of (_constructors p)) →
  (∀ q, _constructors q = _constructors p →
        order_after (buildModules q) = order_after (buildModules p))
  ∧ (Forall (λ kv, dependencies kv.2 = []) (_constructors p) →
     order_after (buildModules p) = Some (reverse (nodes_of (_constructors p)))).
Proof.
  intros Hnd. split.
  - assert (∀ q, _constructors q = _constructors p →
              order_after (buildModules q)
              = match Toposort.array (nodes_of (_constructors p))
                                     (edges_of (_constructors p)) with
                | Ok sorted => Some (reverse sorted)
                | _ => None
                end) as Hany.
    { intros q Hq. unfold buildModules. rewrite Hq.
      destruct (Toposort.array _ _) as [sorted| |] eqn:Hsort; [|done..].
      destruct (resolution_sound _ _ Hnd Hsort) as (Hperm & _).
      rewrite initialise_order; [done|]. simpl. intros m. by rewrite Hq, Hperm. }
    intros q Hq. by rewrite (Hany q Hq), (Hany p eq_refl).
  - intros Hnone. unfold buildModules.
    rewrite array_no_edges by auto using edges_of_no_dependencies.
    rewrite initialise_order; [done|]. simpl. intros m.
    by rewrite elem_of_reverse.
Qed.
End build_facts.

(** * Facts about the failure cascade *)

Section cascade_facts.
Context {H : Host}.
Implicit Types (reg : list (string * ModuleClass)) (p : Parser).
Implicit Types (tr : list Obs) (err : ModuleError).

Lemma same_setup_refl p : same_setup p p.
Proof. by repeat split. Qed.

Lemma same_setup_trans p1 p2 p3 :
  same_setup p1 p2 → same_setup p2 p3 → same_setup p1 p3.
Proof.
  intros (? & ? & ? & ? & ?) (? & ? & ? & ? & ?). repeat split; congruence.
Qed.

Lemma built_same_setup p p' : built p → same_setup p p' → built p'.
Proof.
  intros [Hk Ho Hd Hi] (Hm & Hc & Hor & _). split; rewrite ?Hm, ?Hc, ?Hor; auto.
Qed.

(** ** [splice] after [indexOf] *)

Lemma splice_one_sublist m (l : list string) :
  splice_one (indexOf l m) l `sublist_of` l.
Proof. unfold splice_one. destruct (indexOf l m); apply sublist_delete. Qed.

Lemma delete_NoDup_lookup (l : list string) i m :
  NoDup l → l !! i = Some m → m ∉ delete i l.
Proof.
  intros Hnd Hi. rewrite delete_take_drop.
  rewrite <- (take_drop_middle _ _ _ Hi) in Hnd.
  apply NoDup_app in Hnd as (_ & Hl & Hr). apply NoDup_cons in Hr as [Hr _].
  rewrite elem_of_app. intros [Hin|Hin]; [|done].
  apply (Hl _ Hin). by left.
Qed.

Lemma splice_one_removes m (l : list string) :
  NoDup l → m ∉ splice_one (indexOf l m) l.
Proof.
  intros Hnd. unfold splice_one, indexOf.
  destruct (list_find _ l) as [[i y]|] eqn:Hfind; simpl.
  - apply list_find_Some in Hfind as (Hi & -> & _). by apply delete_NoDup_lookup.
  - apply list_find_None in Hfind. intros Hin%list_elem_of_delete_inv.
    rewrite Forall_forall in Hfind. by apply (Hfind m).
Qed.

(** When the module is in the array, it is the one the splice removes. *)
Lemma splice_one_present m (l : list string) i :
  l !! i = Some m → NoDup l → splice_one (indexOf l m) l = delete i l.
Proof.
  intros Hi Hnd. unfold splice_one, indexOf.
  destruct (list_find _ l) as [[j y]|] eqn:Hfind; simpl.
  - apply list_find_Some in Hfind as (Hj & -> & _).
    by rewrite (NoDup_lookup _ _ _ _ Hnd Hi Hj).
  - apply list_find_None in Hfind. rewrite Forall_forall in Hfind.
    destruct (Hfind m); [|done]. by eapply list_elem_of_lookup_2.
Qed.

(** ** An induction principle for [_setModuleError]

    [Q] speaks about a call, [Qs] about the loop over the keys of the
    registry that follows the two assignments. *)
Lemma _setModuleError_ind
    (Q : string → ModuleError → Parser → Parser → list Obs → Prop)
    (Qs : string → list (string * ModuleClass) → Parser → Parser → list Obs → Prop) :
  (∀ m p, Qs m [] p p []) →
  (∀ m k cls reg p p' tr,
     m ∉ dependencies cls → Qs m reg p p' tr → Qs m ((k, cls) :: reg) p p' tr) →
  (∀ m k cls reg p p1 p' tr1 tr2,
     m ∈ dependencies cls → Q k (DependencyCascadeError m) p p1 tr1 →
     Qs m reg p1 p' tr2 → Qs m ((k, cls) :: reg) p p' (tr1 ++ tr2)) →
  (∀ m err p p' tr,
     let live := splice_one (indexOf (_triggerModules p) m) (_triggerModules p) in
     let errors := <[m := err]> (_moduleErrors p) in
     let p2 := set_moduleErrors errors (set_triggerModules live p) in
     Qs m (_constructors p) p2 p' tr →
     Q m err p p' (Mutated live (_moduleErrors p) :: Mutated live errors :: tr)) →
  ∀ fuel m err p p' tr,
    _setModuleError fuel m err p = Some (p', tr) → Q m err p p' tr.
Proof.
  intros Hnil Hskip Hhit Hcall.
  induction fuel as [|fuel IH]; intros m err p p' tr Hrun; [done|].
  simpl in Hrun.
  destruct (for_dependents _ _ _ _) as [[p3 tr3]|] eqn:Hloop; simplify_eq.
  apply Hcall. revert Hloop. generalize (_constructors p) at 1 2.
  generalize (set_moduleErrors (<[m:=err]> (_moduleErrors p))
                (set_triggerModules
                   (splice_one (indexOf (_triggerModules p) m) (_triggerModules p)) p)).
  clear p. intros p reg. revert p p' tr3.
  induction reg as [|[k cls] reg IHreg]; intros p p' tr Hloop; simpl in Hloop.
  - simplify_eq. apply Hnil.
  - destruct (decide (m ∈ dependencies cls)) as [Hdep|Hdep].
    + destruct (_setModuleError fuel k _ p) as [[p1 tr1]|] eqn:Hk; [|done].
      destruct (for_dependents _ _ _ p1) as [[p2 tr2]|] eqn:Hrest; simplify_eq.
      eapply Hhit; eauto.
    + by apply Hskip, IHreg.
Qed.

(** The cascade assigns [_triggerModules] and [_moduleErrors] only, and its
    trace consists of their successive values. *)
Lemma _setModuleError_frame fuel m err p p' tr :
  _setModuleError fuel m err p = Some (p', tr) →
  same_setup p p' ∧ heap p' = heap p ∧ _timestamp p' = _timestamp p
  ∧ recipients tr = [] ∧ Forall (λ o, ∃ l e, o = Mutated l e) tr.
Proof.
  apply (_setModuleError_ind
    (λ m err p p' tr,
       same_setup p p' ∧ heap p' = heap p ∧ _timestamp p' = _timestamp p
       ∧ recipients tr = [] ∧ Forall (λ o, ∃ l e, o = Mutated l e) tr)
    (λ m reg p p' tr,
       same_setup p p' ∧ heap p' = heap p ∧ _timestamp p' = _timestamp p
       ∧ recipients tr = [] ∧ Forall (λ o, ∃ l e, o = Mutated l e) tr)).
  - intros. split_and!; auto using same_setup_refl.
  - auto.
  - intros ? k cls reg p0 p1 p2 tr1 tr2 _ (? & ? & ? & Hr1 & ?) (? & ? & ? & Hr2 & ?).
    split_and!; eauto using same_setup_trans; try congruence.
    + unfold recipients in *. by rewrite flat_map_app, Hr1, Hr2.
    + by apply Forall_app.
  - intros ? ? p0 p1 tr0 live errors p2 (Hs & ? & ? & ? & ?).
    split_and!; auto.
    repeat constructor; eauto.
Qed.

(** The same principle, with the fact that the registry stays the same made
    available to the cases. *)
Lemma _setModuleError_ind_setup
    (Q : string → ModuleError → Parser → Parser → list Obs → Prop)
    (Qs : string → list (string * ModuleClass) → Parser → Parser → list Obs → Prop) :
  (∀ m p, Qs m [] p p []) →
  (∀ m k cls reg p p' tr,
     m ∉ dependencies cls → Qs m reg p p' tr → Qs m ((k, cls) :: reg) p p' tr) →
  (∀ m k cls reg p p1 p' tr1 tr2,
     m ∈ dependencies cls → same_setup p p1 → same_setup p1 p' →
     Q k (DependencyCascadeError m) p p1 tr1 →
     Qs m reg p1 p' tr2 → Qs m ((k, cls) :: reg) p p' (tr1 ++ tr2)) →
  (∀ m err p p' tr,
     let live := splice_one (indexOf (_triggerModules p) m) (_triggerModules p) in
     let errors := <[m := err]> (_moduleErrors p) in
     let p2 := set_moduleErrors errors (set_triggerModules live p) in
     same_setup p2 p' →
     Qs m (_constructors p) p2 p' tr →
     Q m err p p' (Mutated live (_moduleErrors p) :: Mutated live errors :: tr)) →
  ∀ fuel m err p p' tr,
    _setModuleError fuel m err p = Some (p', tr) → Q m err p p' tr.
Proof.
  intros Hnil Hskip Hhit Hcall fuel m err p p' tr Hrun.
  cut (same_setup p p' ∧ Q m err p p' tr); [tauto|]. revert Hrun.
  apply (_setModuleError_ind
    (λ m err p p' tr, same_setup p p' ∧ Q m err p p' tr)
    (λ m reg p p' tr, same_setup p p' ∧ Qs m reg p p' tr)).
  - auto using same_setup_refl.
  - intros ??????? ? [? ?]. auto.
  - intros ????????? ? [? ?] [? ?]. split; [by eapply same_setup_trans|eauto].
  - intros ????? live errors p2 [Hs ?]. split; [|by apply Hcall].
    destruct Hs as (? & ? & ? & ? & ?). by repeat split.
Qed.

Lemma affected_by_declares reg k m x :
  declares reg k m → affected_by reg k x → affected_by reg m x.
Proof.
  intros Hkm [->|Hxk]; right; [by apply tc_once|].
  eapply tc_r; eauto.
Qed.

Lemma affected_by_depends reg m x dep :
  declares reg x dep → affected_by reg m dep → depends_on reg x m.
Proof.
  intros Hx [->|Hdep]; [by apply tc_once|]. by eapply tc_l.
Qed.

Lemma depends_on_last reg x m :
  depends_on reg x m → ∃ k, declares reg k m ∧ affected_by reg k x.
Proof.
  intros Hx. induction Hx as [x m Hxm|x y m Hxy Hym (k & Hk & Hky)].
  - exists x. split; [done|by left].
  - exists k. split; [done|]. right.
    destruct Hky as [->|Hky]; [by apply tc_once|by eapply tc_l].
Qed.

(** ** What the cascade does to [_triggerModules] *)

Lemma _setModuleError_live fuel m err p p' tr :
  _setModuleError fuel m err p = Some (p', tr) →
  _triggerModules p' `sublist_of` _triggerModules p
  ∧ (NoDup (_triggerModules p) →
     ∀ x, affected_by (_constructors p) m x → x ∉ _triggerModules p').
Proof.
  apply (_setModuleError_ind_setup
    (λ m err p p' tr,
       _triggerModules p' `sublist_of` _triggerModules p
       ∧ (NoDup (_triggerModules p) →
          ∀ x, affected_by (_constructors p) m x → x ∉ _triggerModules p'))
    (λ m reg p p' tr,
       _triggerModules p' `sublist_of` _triggerModules p
       ∧ (NoDup (_triggerModules p) →
          (∀ k cls, (k, cls) ∈ reg → (k, cls) ∈ _constructors p) →
          ∀ x k cls, (k, cls) ∈ reg → m ∈ dependencies cls →
                     affected_by (_constructors p) k x → x ∉ _triggerModules p'))).
  - intros. split; [done|]. by intros ? ? ? ? ? ?%elem_of_nil.
  - intros m0 k cls reg p0 p1 tr0 Hdep [Hsub Hout]. split; [done|].
    intros Hnd Hreg x k' cls' [?|Hin]%elem_of_cons; [by simplify_eq|].
    eapply Hout; eauto. intros; apply Hreg; by right.
  - intros m0 k cls reg p0 p1 p2 tr1 tr2 Hdep (_ & Hreg1 & _) _ [Hsub1 Hout1] [Hsub2 Hout2].
    split; [by etrans|].
    intros Hnd Hreg x k' cls' [?|Hin]%elem_of_cons Hdep' Hx.
    + simplify_eq. intros Hin. eapply Hout1; eauto. by eapply elem_of_sublist.
    + rewrite <- Hreg1 in Hx. eapply Hout2; eauto.
      * by eapply sublist_NoDup.
      * rewrite Hreg1. intros; apply Hreg; by right.
  - intros m0 err0 p0 p1 tr0 live errors p2 _ [Hsub Hout].
    subst p2 live errors. simpl in *.
    pose proof (splice_one_sublist m0 (_triggerModules p0)) as Hsplice.
    split; [by etrans|]. intros Hnd x [->|Hx].
    + intros Hin. apply (splice_one_removes m0 _ Hnd). by eapply elem_of_sublist.
    + apply depends_on_last in Hx as (k & (cls & Hk & Hdep) & Hx).
      eapply Hout; eauto. by eapply sublist_NoDup.
Qed.

(** ** What the cascade does to [_moduleErrors] *)

Lemma cascaded_from_declares reg k m errors x :
  declares reg k m → cascaded_from reg k errors x → cascaded_from reg m errors x.
Proof.
  intros Hkm (dep & ? & ? & ?). exists dep.
  eauto using affected_by_declares.
Qed.

Lemma cascaded_from_depends reg m errors x :
  cascaded_from reg m errors x → depends_on reg x m.
Proof. intros (dep & _ & ? & ?). by eapply affected_by_depends. Qed.

Lemma _setModuleError_errors fuel m err p p' tr :
  _setModuleError fuel m err p = Some (p', tr) →
  acyclic (_constructors p) →
  (∀ x, x ≠ m → _moduleErrors p' !! x = _moduleErrors p !! x
                ∨ cascaded_from (_constructors p) m (_moduleErrors p') x)
  ∧ _moduleErrors p' !! m = Some err
  ∧ (∀ x, depends_on (_constructors p) x m →
          cascaded_from (_constructors p) m (_moduleErrors p') x).
Proof.
  apply (_setModuleError_ind_setup
    (λ m err p p' tr,
       acyclic (_constructors p) →
       (∀ x, x ≠ m → _moduleErrors p' !! x = _moduleErrors p !! x
                     ∨ cascaded_from (_constructors p) m (_moduleErrors p') x)
       ∧ _moduleErrors p' !! m = Some err
       ∧ (∀ x, depends_on (_constructors p) x m →
               cascaded_from (_constructors p) m (_moduleErrors p') x))
    (λ m reg p p' tr,
       acyclic (_constructors p) →
       (∀ k cls, (k, cls) ∈ reg → (k, cls) ∈ _constructors p) →
       (∀ x, _moduleErrors p' !! x = _moduleErrors p !! x
             ∨ cascaded_from (_constructors p) m (_moduleErrors p') x)
       ∧ (∀ x k cls, (k, cls) ∈ reg → m ∈ dependencies cls →
                     affected_by (_constructors p) k x →
                     cascaded_from (_constructors p) m (_moduleErrors p') x))).
  - intros. split; [auto|]. by intros ? ? ? ?%elem_of_nil.
  - intros m0 k cls reg p0 p1 tr0 Hdep IH Hacyc Hreg.
    destruct IH as [Hsame Hhit]; [done|intros; apply Hreg; by right|].
    split; [done|].
    intros x k' cls' [?|Hin]%elem_of_cons; [by simplify_eq|]. eauto.
  - intros m0 k cls reg p0 p1 p2 tr1 tr2 Hdep (_ & Hreg1 & _) _ IH1 IH2 Hacyc Hreg.
    assert (declares (_constructors p0) k m0) as Hkm.
    { exists cls. split; [apply Hreg; by left|done]. }
    destruct IH1 as (Hsame1 & Hk & Hhit1); [done|].
    destruct IH2 as [Hsame2 Hhit2];
      [by rewrite Hreg1|rewrite Hreg1; intros; apply Hreg; by right|].
    rewrite Hreg1 in Hsame2, Hhit2.
    assert (∀ x, affected_by (_constructors p0) k x →
              cascaded_from (_constructors p0) m0 (_moduleErrors p2) x) as Hnow.
    { intros x Hx. destruct (Hsame2 x) as [Heq|?]; [|done].
      destruct Hx as [->|Hx].
      - exists m0. rewrite Heq, Hk. split_and!; [done|done|by left].
      - apply Hhit1 in Hx as (dep & Hdep' & ? & ?). exists dep.
        rewrite Heq, Hdep'. eauto using affected_by_declares. }
    split.
    + intros x. destruct (Hsame2 x) as [Heq|?]; [|by right].
      destruct (decide (x = k)) as [->|Hne]; [right; apply Hnow; by left|].
      destruct (Hsame1 x Hne) as [Heq1|Hc]; [left; congruence|].
      right. apply Hnow. right. by eapply cascaded_from_depends.
    + intros x k' cls' [?|Hin]%elem_of_cons Hdep' Hx; [simplify_eq; auto|eauto].
  - intros m0 err0 p0 p1 tr0 live errors p2 _ IH Hacyc.
    subst p2 live errors. simpl in *.
    destruct IH as [Hsame Hhit]; [done..|].
    assert (_moduleErrors p1 !! m0 = Some err0) as Hm.
    { destruct (Hsame m0) as [->|Hc]; [by rewrite lookup_insert_eq|].
      apply cascaded_from_depends in Hc. by destruct (Hacyc m0). }
    split_and!; [|done|].
    + intros x Hne. destruct (Hsame x) as [Heq|?]; [left|by right].
      by rewrite Heq, lookup_insert_ne.
    + intros x (k & (cls & Hk & Hdep) & Hx)%depends_on_last. eauto.
Qed.

(** ** The successive values of the two fields during the cascade *)

Lemma chained_app s l1 l2 :
  chained s (l1 ++ l2) ↔ chained s l1 ∧ chained (default s (last l1)) l2.
Proof.
  revert s. induction l1 as [|s1 l1 IH]; intros s; simpl; [tauto|].
  rewrite IH. rewrite last_cons. destruct (last l1); simpl; tauto.
Qed.

Lemma snapshots_app tr1 tr2 :
  snapshots (tr1 ++ tr2) = snapshots tr1 ++ snapshots tr2.
Proof. apply flat_map_app. Qed.

Lemma snapshot_step_refl s : snapshot_step s s.
Proof. split; auto. Qed.

Lemma snapshot_step_trans s1 s2 s3 :
  snapshot_step s1 s2 → snapshot_step s2 s3 → snapshot_step s1 s3.
Proof. intros [? ?] [? ?]. split; [by etrans|auto]. Qed.

(** The last snapshot of a chain that starts well formed is well formed. *)
Lemma chained_last_ok s l :
  snapshot_ok s → chained s l → snapshot_ok (default s (last l)).
Proof.
  revert s. induction l as [|s1 l IH]; intros s Hok Hch; simpl; [done|].
  destruct Hch as (_ & Hok1 & Hch). rewrite last_cons.
  specialize (IH s1 Hok1 Hch). by destruct (last l).
Qed.

Lemma _setModuleError_snapshots fuel m err p p' tr :
  _setModuleError fuel m err p = Some (p', tr) →
  snapshot_ok (snapshot p) →
  chained (snapshot p) (snapshots tr)
  ∧ default (snapshot p) (last (snapshots tr)) = snapshot p'.
Proof.
  apply (_setModuleError_ind
    (λ m err p p' tr,
       snapshot_ok (snapshot p) →
       chained (snapshot p) (snapshots tr)
       ∧ default (snapshot p) (last (snapshots tr)) = snapshot p')
    (λ m reg p p' tr,
       snapshot_ok (snapshot p) →
       chained (snapshot p) (snapshots tr)
       ∧ default (snapshot p) (last (snapshots tr)) = snapshot p')).
  - intros. by split.
  - auto.
  - intros m0 k cls reg p0 p1 p2 tr1 tr2 _ IH1 IH2 Hok.
    destruct (IH1 Hok) as [Hch1 Hlast1].
    assert (snapshot_ok (snapshot p1)) as Hok1.
    { rewrite <- Hlast1. by apply chained_last_ok. }
    destruct (IH2 Hok1) as [Hch2 Hlast2].
    rewrite snapshots_app. split.
    + apply chained_app. by rewrite Hlast1.
    + rewrite last_app. destruct (last (snapshots tr2)) as [s2|] eqn:Hl2; simpl in *.
      * done.
      * by rewrite Hlast1.
  - intros m0 err0 p0 p1 tr0 live errors p2 IH [Hnd Hok].
    unfold snapshot in *. simpl in *.
    pose proof (splice_one_sublist m0 (_triggerModules p0)) as Hsub.
    pose proof (splice_one_removes m0 _ Hnd) as Hrem.
    assert (snapshot_ok (live, _moduleErrors p0)) as Hok1.
    { split; simpl; [by eapply sublist_NoDup|].
      intros x Hx. apply Hok. by eapply elem_of_sublist. }
    assert (snapshot_ok (live, errors)) as Hok2.
    { split; simpl; [by destruct Hok1|]. intros x Hx. subst errors.
      rewrite lookup_insert_ne; [by apply Hok1|]. by intros ->. }
    destruct (IH Hok2) as [Hch Hlast]. split.
    + simpl. split_and!; [|exact Hok1| |exact Hok2|exact Hch].
      * split; simpl; auto.
      * split; simpl; [done|]. intros x Hx. subst errors.
        rewrite lookup_insert. destruct (decide _); eauto.
    + rewrite !last_cons. by destruct (last (snapshots tr0)).
Qed.
End cascade_facts.

(** * Facts about the trigger pass *)

Section trigger_facts.
Context {H : Host}.
Implicit Types (reg : list (string * ModuleClass)) (p : Parser).
Implicit Types (tr : list Obs) (err : ModuleError) (event : Event).

Lemma built_NoDup p : built p → NoDup (moduleOrder p).
Proof. intros [Hk Ho _ _]. by rewrite Ho. Qed.

Lemma built_acyclic p : built p → acyclic (_constructors p).
Proof.
  intros Hb x Hx.
  assert (∀ a b, depends_on (_constructors p) a b → before (moduleOrder p) b a) as Hbefore.
  { induction 1 as [a b Hab|a b c Hab _ IH]; [by apply built_dependencies|].
    apply built_dependencies in Hab; [|done].
    destruct IH as (i & j & Hi & Hj & Hij), Hab as (i' & j' & Hi' & Hj' & Hij').
    pose proof (NoDup_lookup _ _ _ _ (built_NoDup _ Hb) Hj Hi'). subst i'.
    exists i, j'. split_and!; [done..|lia]. }
  by eapply before_irrefl, Hbefore; [apply built_NoDup|].
Qed.

(** ** Termination of the cascade *)

Lemma _setModuleError_terminates fuel : ∀ m err p i,
  built p → moduleOrder p !! i = Some m →
  length (moduleOrder p) ≤ fuel + i →
  is_Some (_setModuleError fuel m err p).
Proof.
  induction fuel as [|fuel IH]; intros m err p i Hb Hi Hlen.
  { apply lookup_lt_Some in Hi. lia. }
  simpl.
  set (p2 := set_moduleErrors _ _).
  assert (same_setup p p2) as Hs2 by by repeat split.
  cut (∀ reg q, (∀ k cls, (k, cls) ∈ reg → (k, cls) ∈ _constructors p) →
         same_setup p q →
         is_Some (for_dependents
                    (λ key, _setModuleError fuel key (DependencyCascadeError m))
                    m reg q)).
  { intros Hloop. destruct (Hloop (_constructors p) p2) as [[p3 tr3] ->]; eauto. }
  induction reg as [|[k cls] reg IHreg]; intros q Hreg Hq; simpl; [by eauto|].
  destruct (decide (m ∈ dependencies cls)) as [Hdep|_].
  - assert (declares (_constructors p) k m) as Hkm.
    { exists cls. split; [apply Hreg; by left|done]. }
    apply (built_dependencies _ Hb) in Hkm as (i' & j & Hi' & Hj & Hij).
    pose proof (NoDup_lookup _ _ _ _ (built_NoDup _ Hb) Hi Hi'). subst i'.
    destruct (IH k (DependencyCascadeError m) q j) as [[p1 tr1] Hk].
    + by eapply built_same_setup.
    + destruct Hq as (_ & _ & -> & _). done.
    + destruct Hq as (_ & _ & -> & _). lia.
    + rewrite Hk. apply _setModuleError_frame in Hk as (Hs1 & _).
      destruct (IHreg p1) as [[p3 tr3] ->]; eauto using same_setup_trans.
      intros; apply Hreg; by right.
  - apply IHreg; [|done]. intros; apply Hreg; by right.
Qed.

Lemma cascade_fuel_enough p : built p → cascade_fuel p = length (moduleOrder p).
Proof.
  intros [_ Ho _ _]. unfold cascade_fuel.
  rewrite (Permutation_length Ho). unfold nodes_of. by rewrite length_fmap.
Qed.

Lemma cascade_terminates m err p :
  built p → m ∈ moduleOrder p →
  is_Some (_setModuleError (cascade_fuel p) m err p).
Proof.
  intros Hb (i & Hi)%list_elem_of_lookup.
  apply _setModuleError_terminates with i; [done..|].
  rewrite cascade_fuel_enough by done. lia.
Qed.

(** ** The cascade keeps the state of a run well formed *)

Lemma errors_ok_cascade reg (E E' : gmap string ModuleError) m err :
  errors_ok reg E → E !! m = None →
  (∀ dep, err ≠ DependencyCascadeError dep) →
  (∀ x, x ≠ m → E' !! x = E !! x ∨ cascaded_from reg m E' x) →
  E' !! m = Some err →
  (∀ x, depends_on reg x m → cascaded_from reg m E' x) →
  errors_ok reg E'.
Proof.
  intros [HJ Hcl] Hm Herr Hsame Hm' Hdeps.
  assert (∀ y, affected_by reg m y → is_Some (E' !! y)) as Haff.
  { intros y [->|Hy]; [eauto|]. destruct (Hdeps y Hy) as (? & ? & _). eauto. }
  assert (∀ y, is_Some (E !! y) → is_Some (E' !! y)) as Hmono.
  { intros y Hy. destruct (decide (y = m)) as [->|Hne].
    - rewrite Hm in Hy. by destruct Hy.
    - destruct (Hsame y Hne) as [->|(? & ? & _)]; eauto. }
  split.
  - intros a dep Ha. destruct (decide (a = m)) as [->|Hne].
    { rewrite Hm' in Ha. simplify_eq. by destruct (Herr dep). }
    destruct (Hsame a Hne) as [Heq|(dep' & Ha' & Hdecl & Hdep')].
    + rewrite Heq in Ha. destruct (HJ _ _ Ha). auto.
    + rewrite Ha' in Ha. simplify_eq. auto.
  - intros b a Hb Hab. destruct (decide (b = m)) as [->|Hne].
    { destruct (Hdeps a) as (dep & ? & _); [by apply tc_once|eauto]. }
    destruct (Hsame b Hne) as [Heq|Hc].
    + rewrite Heq in Hb. destruct (Hcl _ _ Hb Hab) as (dep & Ha).
      destruct (decide (a = m)) as [->|Hne']; [congruence|].
      destruct (Hsame a Hne') as [Heq'|(dep' & ? & _)]; [|eauto].
      exists dep. congruence.
    + destruct (Hdeps a) as (dep & ? & _); [|eauto].
      eapply tc_l; [done|]. by eapply cascaded_from_depends.
Qed.

Lemma running_cascade fuel m err p p' tr :
  running p → m ∈ _triggerModules p →
  (∀ dep, err ≠ DependencyCascadeError dep) →
  _setModuleError fuel m err p = Some (p', tr) →
  running p'.
Proof.
  intros [Hb Hlive Hsnap Herr] Hm Hne Hrun.
  pose proof (_setModuleError_frame _ _ _ _ _ _ Hrun) as (Hs & _).
  pose proof (_setModuleError_live _ _ _ _ _ _ Hrun) as (Hsub & _).
  pose proof (_setModuleError_snapshots _ _ _ _ _ _ Hrun Hsnap) as (Hch & Hlast).
  pose proof (_setModuleError_errors _ _ _ _ _ _ Hrun (built_acyclic _ Hb))
    as (Hsame & Hm' & Hdeps).
  split.
  - by eapply built_same_setup.
  - destruct Hs as (_ & _ & -> & _). by etrans.
  - rewrite <- Hlast. by apply chained_last_ok.
  - destruct Hs as (_ & -> & _). eapply errors_ok_cascade; eauto.
    by apply Hsnap.
Qed.

Lemma running_set_heap h p : running p → running (set_heap h p).
Proof. intros [Hb ? ? ?]. split; [by destruct Hb|done..]. Qed.

Lemma running_set_timestamp t p : running p → running (set_timestamp t p).
Proof. intros [Hb ? ? ?]. split; [by destruct Hb|done..]. Qed.

(** ** Traces *)

Lemma recipients_app tr1 tr2 :
  recipients (tr1 ++ tr2) = recipients tr1 ++ recipients tr2.
Proof. apply flat_map_app. Qed.

Lemma deliveries_app tr1 tr2 :
  deliveries (tr1 ++ tr2) = deliveries tr1 ++ deliveries tr2.
Proof. apply flat_map_app. Qed.

Lemma out_after_app reg out tr1 tr2 :
  out_after reg out (tr1 ++ tr2) = out_after reg (out_after reg out tr1) tr2.
Proof.
  revert out. induction tr1 as [|o tr1 IH]; intros out; simpl; [done|].
  destruct o; auto.
Qed.

Lemma isolates_app reg out tr1 tr2 :
  isolates reg out (tr1 ++ tr2)
  ↔ isolates reg out tr1 ∧ isolates reg (out_after reg out tr1) tr2.
Proof.
  revert out. induction tr1 as [|o tr1 IH]; intros out; simpl; [tauto|].
  destruct o; rewrite ?IH; tauto.
Qed.

Lemma out_after_mono reg out tr m : out m → out_after reg out tr m.
Proof.
  revert out. induction tr as [|o tr IH]; intros out Hm; simpl; [done|].
  destruct o; auto.
Qed.

Lemma isolates_recipients reg out tr m :
  isolates reg out tr → m ∈ recipients tr → ¬ out m.
Proof.
  revert out. induction tr as [|o tr IH]; intros out Hiso Hm; simpl in *.
  - by apply elem_of_nil in Hm.
  - destruct o; simpl in *; try by eauto.
    + destruct Hiso as [Hout Hiso].
      apply elem_of_cons in Hm as [->|Hm]; eauto.
    + intros Hout. eapply IH; eauto. simpl. auto.
Qed.

(** After an exception of [b], no module that is [b] or depends on it
    receives anything. *)
Lemma isolates_after_throw reg out tr1 b x tr2 a :
  isolates reg out (tr1 ++ Threw b x :: tr2) →
  affected_by reg b a → a ∉ recipients tr2.
Proof.
  intros [_ Hiso]%isolates_app Ha Hin. simpl in Hiso.
  eapply isolates_recipients in Hiso; [|done]. apply Hiso.
  right. done.
Qed.

Lemma chained_step s l :
  chained s l → snapshot_step s (default s (last l)).
Proof.
  revert s. induction l as [|s1 l IH]; intros s Hch; simpl.
  - apply snapshot_step_refl.
  - destruct Hch as (Hstep & _ & Hch). rewrite last_cons.
    specialize (IH s1 Hch). destruct (last l); simpl in *;
      eauto using snapshot_step_trans.
Qed.

(** ** Stretches of the trigger pass *)

Lemma stretch_nil p p' :
  running p → same_setup p p' → snapshot p' = snapshot p → stretch p p' [].
Proof.
  intros Hr Hs Hsnap.
  assert (_triggerModules p' = _triggerModules p ∧ _moduleErrors p' = _moduleErrors p)
    as [Hl He] by (unfold snapshot in Hsnap; by simplify_eq).
  split; simpl; rewrite ?Hsnap, ?Hl, ?He; auto using snapshot_step_refl.
  - destruct Hr as [Hb ? ? ?]. pose proof Hs as (Hm & Hc & Ho & ? & ?).
    split; rewrite ?Hsnap, ?Hl, ?He, ?Hc, ?Ho; [by eapply built_same_setup|done..].
  - by intros ? ?%elem_of_nil.
  - by intros ? ? ?%elem_of_nil.
Qed.

Lemma stretch_app p p1 p2 tr1 tr2 :
  stretch p p1 tr1 → stretch p1 p2 tr2 → stretch p p2 (tr1 ++ tr2).
Proof.
  intros [Hs1 Hr1 Hst1 Hch1 Hl1 Hrec1 Hiso1 Hth1 Hex1]
         [Hs2 Hr2 Hst2 Hch2 Hl2 Hrec2 Hiso2 Hth2 Hex2].
  assert (_constructors p1 = _constructors p) as Hreg by by destruct Hs1 as (_ & ? & _).
  rewrite Hreg in *.
  split.
  - by eapply same_setup_trans.
  - done.
  - by eapply snapshot_step_trans.
  - rewrite snapshots_app. apply chained_app. by rewrite Hl1.
  - rewrite snapshots_app, last_app.
    destruct (last (snapshots tr2)) as [s2|] eqn:Hlast2; simpl in *; congruence.
  - intros m. rewrite recipients_app, elem_of_app. intros [?|Hm]; [auto|].
    destruct Hst1 as [Hsub _]. eapply elem_of_sublist; [|exact Hsub]. auto.
  - intros out Hout. rewrite isolates_app, out_after_app.
    destruct (Hiso1 out Hout) as [? Hout1].
    destruct (Hiso2 _ Hout1). auto.
  - intros b x [Hb|Hb]%elem_of_app; [|eauto].
    destruct Hst2 as [_ Hmono]. eauto.
  - intros a Ha. destruct (Hex2 a Ha) as [Ha1|(b & x & ? & ?)].
    + destruct (Hex1 a Ha1) as [?|(b & x & ? & ?)]; [by left|].
      right. exists b, x. rewrite elem_of_app. auto.
    + right. exists b, x. rewrite elem_of_app. auto.
Qed.

(** A call of [triggerEvent] on a live module that returns. *)
Lemma stretch_call p m event h :
  running p → m ∈ _triggerModules p →
  stretch p (set_heap h p) [Triggered m event].
Proof.
  intros Hr Hm. split; simpl; auto using snapshot_step_refl, running_set_heap.
  - by repeat split.
  - by intros ? ->%list_elem_of_singleton.
  - intros out Hout. split_and!; [|done|done]. intros ?%Hout. done.
  - by intros ? ? ?%list_elem_of_singleton.
Qed.

(** A call that throws, with the cascade that follows. *)
Lemma stretch_throw p m event x h p1 tr1 :
  running p → m ∈ _triggerModules p →
  _setModuleError (cascade_fuel (set_heap h p)) m (RuntimeError x) (set_heap h p)
    = Some (p1, tr1) →
  stretch p p1 (Triggered m event :: Threw m x :: tr1).
Proof.
  intros Hr Hm Hrun.
  pose proof (running_set_heap h p Hr) as Hr0.
  assert (running p1) as Hr1.
  { eapply running_cascade; [exact Hr0|exact Hm| |exact Hrun]. done. }
  pose proof (_setModuleError_frame _ _ _ _ _ _ Hrun) as (Hs & _ & _ & Hrec & Hmut).
  pose proof (_setModuleError_live _ _ _ _ _ _ Hrun) as (Hsub & Hout1).
  pose proof (_setModuleError_snapshots _ _ _ _ _ _ Hrun (running_snapshot _ Hr0))
    as (Hch & Hlast).
  pose proof (_setModuleError_errors _ _ _ _ _ _ Hrun
                (built_acyclic _ (running_built _ Hr0))) as (Hsame & Hm' & Hdeps).
  simpl in *.
  assert (∀ out tr, Forall (λ o, ∃ l e, o = Mutated l e) tr →
            isolates (_constructors p) out tr
            ∧ out_after (_constructors p) out tr = out) as Hquiet.
  { intros out tr Hall. revert out.
    induction Hall as [|o tr (l & e & ->) _ IH]; intros out; simpl; auto. }
  split; simpl.
  - destruct Hs as (? & ? & ? & ? & ?). by repeat split.
  - done.
  - rewrite <- Hlast. by apply chained_step.
  - done.
  - done.
  - intros m' [->|Hin]%elem_of_cons; [done|]. rewrite Hrec in Hin.
    by apply elem_of_nil in Hin.
  - intros out Hout.
    destruct (Hquiet (λ m', out m' ∨ affected_by (_constructors p) m m') tr1 Hmut)
      as [Hiso ->].
    split_and!; [by intros ?%Hout|done|].
    intros m' [Hm1|Hm1].
    + intros Hin. apply (Hout _ Hm1). by eapply elem_of_sublist.
    + apply Hout1; [|done]. by destruct (running_snapshot _ Hr).
  - intros b y [?|[?|Hin]%elem_of_cons]%elem_of_cons; simplify_eq; [eauto|].
    rewrite Forall_forall in Hmut. by destruct (Hmut _ Hin) as (? & ? & ?).
  - intros a Ha. destruct (decide (a = m)) as [->|Hne].
    + right. exists m, x. split; [set_solver|by left].
    + destruct (Hsame a Hne) as [Heq|Hc]; [left; by rewrite <- Heq|].
      right. exists m, x. split; [set_solver|]. right.
      by eapply cascaded_from_depends.
Qed.

(** ** The loop of [triggerEvent] *)

Lemma sublist_drop_S (l : list string) n : drop (S n) l `sublist_of` drop n l.
Proof.
  replace (S n) with (n + 1) by lia. rewrite <- drop_drop. apply sublist_drop.
Qed.

Lemma sublist_drop_mono (l1 l2 : list string) n :
  l1 `sublist_of` l2 → drop n l1 `sublist_of` drop n l2.
Proof.
  intros Hsub. revert n.
  induction Hsub as [|x l1 l2 Hsub IH|x l1 l2 Hsub IH]; intros n.
  - by rewrite drop_nil.
  - destruct n; simpl; [by constructor|apply IH].
  - destruct n; simpl; [by constructor|].
    etrans; [apply sublist_drop_S|apply IH].
Qed.

Lemma running_instance p m :
  running p → m ∈ _triggerModules p → is_Some (modules p !! m).
Proof.
  intros [Hb Hsub _ _] Hm. apply (built_instances _ Hb).
  by eapply elem_of_sublist.
Qed.

Lemma triggerEvent_loop_spec event n : ∀ k p,
  running p →
  ∃ p' tr,
    triggerEvent_loop n k event p = Some (p', tr)
    ∧ stretch p p' tr
    ∧ _timestamp p' = _timestamp p
    ∧ recipients tr `sublist_of` drop k (_triggerModules p)
    ∧ deliveries tr = (λ m, (m, event)) <$> recipients tr
    ∧ ((∀ m x, Threw m x ∉ tr) →
       recipients tr = take n (drop k (_triggerModules p))
       ∧ snapshot p' = snapshot p).
Proof.
  induction n as [|n IH]; intros k p Hr; simpl.
  { exists p, []. split_and!; [done| |done| |done|].
    - by apply stretch_nil; [|apply same_setup_refl|].
    - apply sublist_nil_l.
    - by rewrite take_0. }
  destruct (_triggerModules p !! k) as [m|] eqn:Hk.
  2:{ destruct (IH (S k) p Hr) as (p' & tr & -> & Hst & Ht & Hsub & Hdel & Hno).
      exists p', tr. split_and!; auto.
      - etrans; [exact Hsub|apply sublist_drop_S].
      - intros Hquiet. destruct (Hno Hquiet) as [-> ?]. split; [|done].
        apply lookup_ge_None in Hk. by rewrite !drop_ge, !take_nil by lia. }
  assert (m ∈ _triggerModules p) as Hm by by eapply list_elem_of_lookup_2.
  destruct (running_instance p m Hr Hm) as [module ->].
  destruct (handleEvent module event (heap p)) as [[x|] h] eqn:Hcall.
  - (* the call throws *)
    pose proof (running_set_heap h p Hr) as Hr0.
    destruct (cascade_terminates m (RuntimeError x) (set_heap h p)) as [[p1 tr1] Hc].
    { apply Hr0. }
    { simpl. eapply elem_of_sublist; [exact Hm|apply Hr]. }
    rewrite Hc.
    pose proof (stretch_throw p m event x h p1 tr1 Hr Hm Hc) as Hst1.
    pose proof (_setModuleError_frame _ _ _ _ _ _ Hc) as (_ & _ & Ht1 & Hrec1 & _).
    destruct (IH (S k) p1 (stretch_running _ _ _ Hst1))
      as (p' & tr2 & -> & Hst2 & Ht2 & Hsub & Hdel & _).
    exists p', (Triggered m event :: Threw m x :: tr1 ++ tr2). split_and!.
    + done.
    + by apply (stretch_app p p1 p' (Triggered m event :: Threw m x :: tr1) tr2).
    + by rewrite Ht2, Ht1.
    + simpl. rewrite recipients_app, Hrec1. simpl.
      rewrite (drop_S _ _ _ Hk). apply sublist_skip.
      etrans; [exact Hsub|]. apply sublist_drop_mono.
      apply (stretch_step _ _ _ Hst1).
    + simpl. rewrite deliveries_app, recipients_app, Hrec1, Hdel. simpl.
      assert (deliveries tr1 = []) as ->; [|done].
      apply _setModuleError_frame in Hc as (_ & _ & _ & _ & Hmut).
      clear -Hmut. induction Hmut as [|o tr (l & e & ->) _ IHm]; [done|apply IHm].
    + intros Hquiet. destruct (Hquiet m x). set_solver.
  - (* the call returns *)
    pose proof (running_set_heap h p Hr) as Hr0.
    pose proof (stretch_call p m event h Hr Hm) as Hst1.
    destruct (IH (S k) (set_heap h p) Hr0)
      as (p' & tr2 & -> & Hst2 & Ht2 & Hsub & Hdel & Hno).
    exists p', (Triggered m event :: tr2). split_and!.
    + done.
    + by apply (stretch_app p (set_heap h p) p' [Triggered m event] tr2).
    + by rewrite Ht2.
    + simpl. rewrite (drop_S _ _ _ Hk). by apply sublist_skip.
    + simpl. by rewrite Hdel.
    + intros Hquiet. destruct Hno as [Hrec Hsnap].
      { intros m' x' Hin. apply (Hquiet m' x'). by right. }
      simpl in *. rewrite (drop_S _ _ _ Hk). simpl. by rewrite Hrec.
Qed.

Lemma triggerEvent_spec event p :
  running p →
  ∃ p' tr,
    triggerEvent event p = Some (p', tr)
    ∧ stretch p p' tr
    ∧ _timestamp p' = _timestamp p
    ∧ recipients tr `sublist_of` _triggerModules p
    ∧ deliveries tr = (λ m, (m, event)) <$> recipients tr
    ∧ ((∀ m x, Threw m x ∉ tr) →
       recipients tr = _triggerModules p ∧ snapshot p' = snapshot p).
Proof.
  intros Hr. unfold triggerEvent.
  destruct (triggerEvent_loop_spec event (length (_triggerModules p)) 0 p Hr)
    as (p' & tr & -> & ? & ? & Hsub & ? & Hno).
  exists p', tr. split_and!; auto.
  intros Hquiet. destruct (Hno Hquiet) as [-> ?]. by rewrite drop_0, firstn_all.
Qed.
End trigger_facts.

(** * Facts about [parseEvents] *)

Section run_facts.
Context {H : Host}.
Implicit Types (reg : list (string * ModuleClass)) (p : Parser).
Implicit Types (tr : list Obs) (err : ModuleError) (event : Event).



Lemma analysis_pass_spec events : ∀ p,
  running p →
  ∃ p' tr,
    analysis_pass events p = Some (p', tr)
    ∧ stretch p p' tr
    ∧ _timestamp p' = default (_timestamp p) (timestamp <$> last events)
    ∧ ∀ m e, (m, e) ∈ deliveries tr → e ∈ events.
Proof.
  induction events as [|event events IH]; intros p Hr; simpl.
  { exists p, []. split_and!; [done| |done|by intros ? ? ?%elem_of_nil].
    by apply stretch_nil; [|apply same_setup_refl|]. }
  pose proof (running_set_timestamp (timestamp event) p Hr) as Hr0.
  destruct (triggerEvent_spec event _ Hr0) as (p1 & tr1 & -> & Hst1 & Ht1 & _ & Hdel1 & _).
  destruct (IH p1 (stretch_running _ _ _ Hst1)) as (p' & tr2 & -> & Hst2 & Ht2 & Hdel2).
  exists p', (tr1 ++ tr2). split_and!.
  - done.
  - apply (stretch_app p (set_timestamp (timestamp event) p) p' [] (tr1 ++ tr2)).
    + by apply stretch_nil; [|repeat split|].
    + by eapply stretch_app.
  - rewrite Ht2, Ht1. simpl. rewrite last_cons.
    by destruct (last events).
  - intros m e. rewrite deliveries_app, elem_of_app, Hdel1.
    intros [(? & ? & _)%list_elem_of_fmap|?]; [simplify_eq; by left|right; eauto].
Qed.

Lemma normalise_chain_app input order1 tr1 mid order2 tr2 output :
  normalise_chain input order1 tr1 mid →
  normalise_chain mid order2 tr2 output →
  normalise_chain input (order1 ++ order2) (tr1 ++ tr2) output.
Proof. induction 1; simpl; [done|]. intros. constructor. auto. Qed.

Lemma normalise_chain_quiet input order tr output :
  normalise_chain input order tr output →
  Forall is_normalise tr ∧ recipients tr = [] ∧ snapshots tr = []
  ∧ ∀ b x, Threw b x ∉ tr.
Proof.
  induction 1 as [|input m mid order tr output _ (? & ? & ? & Hth)]; simpl.
  - split_and!; [constructor|done|done|]. by intros ? ? ?%elem_of_nil.
  - split_and!; [by constructor|done|done|].
    intros b x [?|?]%elem_of_cons; [done|by eapply Hth].
Qed.

(** The normalisers either all return, each handed what the one before it
    returned, or the first one that throws ends the loop. *)
Lemma run_normalisers_spec order : ∀ events p,
  (∀ m, m ∈ order → is_Some (modules p !! m)) →
  match run_normalisers order events p with
  | Ok (events', p1, tr1) =>
      normalise_chain events order tr1 events'
      ∧ same_setup p p1 ∧ snapshot p1 = snapshot p ∧ _timestamp p1 = _timestamp p
  | Throws (e, p1, tr1) =>
      ∃ m done' rest mid module,
        e = NormaliseFailed m ∧ order = done' ++ m :: rest
        ∧ normalise_chain events done' tr1 mid
        ∧ modules p !! m = Some module
        ∧ normalise module mid (heap p1) = None
  | OutOfFuel => False
  end.
Proof.
  induction order as [|m order IH]; intros events p Hinst; simpl.
  { split_and!; [constructor|apply same_setup_refl|done..]. }
  destruct (Hinst m) as [module Hm]; [by left|]. rewrite Hm.
  destruct (normalise module events (heap p)) as [[events1 h]|] eqn:Hcall.
  2:{ exists m, [], order, events, module. split_and!; auto. constructor. }
  specialize (IH events1 (set_heap h p)).
  destruct (run_normalisers order events1 (set_heap h p))
    as [[[events' p1] tr1]|[[e p1] tr1]|].
  - destruct IH as (Hch & Hs & Hsnap & Ht); [intros; apply Hinst; by right|].
    split_and!; [by constructor| |done..].
    destruct Hs as (? & ? & ? & ? & ?). by repeat split.
  - destruct IH as (m' & done' & rest & mid & module' & -> & -> & Hch & Hm' & Hthrow);
      [intros; apply Hinst; by right|].
    exists m', (m :: done'), rest, mid, module'.
    split_and!; auto. by constructor.
  - apply IH. intros; apply Hinst; by right.
Qed.

(** The parser as [parseEvents] has it when the trigger pass begins. *)
Lemma running_start p p1 :
  built p → _moduleErrors p = ∅ → same_setup p p1 → snapshot p1 = snapshot p →
  running (set_triggerModules (moduleOrder p1) p1).
Proof.
  intros Hb Hempty Hs Hsnap.
  assert (_moduleErrors p1 = ∅) as He.
  { unfold snapshot in Hsnap. congruence. }
  pose proof (built_same_setup _ _ Hb Hs) as Hb1.
  split; simpl.
  - by destruct Hb1.
  - done.
  - split; simpl; [by apply built_NoDup|]. intros. by rewrite He.
  - rewrite He. split.
    + intros ? ?. by rewrite lookup_empty.
    + intros ? ? [? Hl]. by rewrite lookup_empty in Hl.
Qed.

Lemma fabricateEvent_spec init trigger' p :
  running p →
  ∃ p' tr,
    fabricateEvent init trigger' p = Some (p', tr)
    ∧ stretch p p' tr
    ∧ _timestamp p' = _timestamp p
    ∧ recipients tr `sublist_of` _triggerModules p
    ∧ deliveries tr = (λ m, (m, fabricated init trigger' p)) <$> recipients tr
    ∧ ((∀ m x, Threw m x ∉ tr) →
       recipients tr = _triggerModules p ∧ snapshot p' = snapshot p).
Proof. apply triggerEvent_spec. Qed.

(** The anatomy of a run. *)
Lemma parseEvents_spec events p :
  built p → _moduleErrors p = ∅ →
  match run_normalisers (moduleOrder p) events p with
  | Ok (events', p1, tr1) =>
      let p2 := set_triggerModules (moduleOrder p1) p1 in
      ∃ p3 tr3 p4 tr4 p5 tr5,
        running p2
        ∧ fabricateEvent init_event None p2 = Some (p3, tr3)
        ∧ analysis_pass events' p3 = Some (p4, tr4)
        ∧ fabricateEvent complete_event None p4 = Some (p5, tr5)
        ∧ parseEvents events p =
            Ok (p5, tr1 ++ Mutated (moduleOrder p) ∅ :: tr3 ++ tr4 ++ tr5)
        ∧ stretch p2 p3 tr3 ∧ stretch p3 p4 tr4 ∧ stretch p4 p5 tr5
  | Throws e => parseEvents events p = Throws e
  | OutOfFuel => False
  end.
Proof.
  intros Hb Hempty. unfold parseEvents.
  pose proof (run_normalisers_spec (moduleOrder p) events p (built_instances _ Hb)) as Hnorm.
  destruct (run_normalisers _ _ _) as [[[events' p1] tr1]|[[e p1] tr1]|]; [|done..].
  destruct Hnorm as (Hch & Hs & Hsnap & Ht).
  pose proof (running_start p p1 Hb Hempty Hs Hsnap) as Hr2.
  assert (moduleOrder p1 = moduleOrder p ∧ _moduleErrors p1 = ∅) as [Ho He].
  { destruct Hs as (_ & _ & ? & _). unfold snapshot in Hsnap. split; [done|].
    congruence. }
  simpl.
  destruct (fabricateEvent_spec init_event None _ Hr2) as (p3 & tr3 & Hinit & Hst3 & _).
  destruct (analysis_pass_spec events' p3 (stretch_running _ _ _ Hst3))
    as (p4 & tr4 & Hreal & Hst4 & _).
  destruct (fabricateEvent_spec complete_event None p4 (stretch_running _ _ _ Hst4))
    as (p5 & tr5 & Hcomplete & Hst5 & _).
  exists p3, tr3, p4, tr4, p5, tr5.
  rewrite Hinit, Hreal, Hcomplete. simpl. rewrite He.
  rewrite Ho in *. split_and!; done.
Qed.

Lemma normalise_isolates reg out tr :
  Forall is_normalise tr → isolates reg out tr ∧ out_after reg out tr = out.
Proof.
  induction 1 as [|o tr Ho _ IH]; simpl; [done|]. by destruct o.
Qed.

Lemma out_after_throw reg out tr b x a :
  Threw b x ∈ tr → affected_by reg b a → out_after reg out tr a.
Proof.
  revert out. induction tr as [|o tr IH]; intros out Hin Ha.
  - by apply elem_of_nil in Hin.
  - apply elem_of_cons in Hin as [<-|Hin]; simpl.
    + apply out_after_mono. by right.
    + destruct o; eauto.
Qed.

Lemma errors_ok_depends reg (E : gmap string ModuleError) a b :
  errors_ok reg E → is_Some (E !! b) → depends_on reg a b →
  ∃ dep, E !! a = Some (DependencyCascadeError dep)
         ∧ declares reg a dep ∧ is_Some (E !! dep).
Proof.
  intros [HJ Hcl] Hb Hab. induction Hab as [a b Hab|a c b Hac _ IH].
  - destruct (Hcl _ _ Hb Hab) as (dep & Ha). exists dep.
    destruct (HJ _ _ Ha). auto.
  - destruct (IH Hb) as (dep' & Hc & _).
    destruct (Hcl c a) as (dep & Ha); [by eauto|done|]. exists dep.
    destruct (HJ _ _ Ha). auto.
Qed.

(** The whole trigger pass of a run is one stretch. *)
Lemma parseEvents_stretch events p p' tr :
  built p → _moduleErrors p = ∅ → parseEvents events p = Ok (p', tr) →
  ∃ events' p1 tr1 rest,
    run_normalisers (moduleOrder p) events p = Ok (events', p1, tr1)
    ∧ normalise_chain events (moduleOrder p) tr1 events'
    ∧ tr = tr1 ++ Mutated (moduleOrder p) ∅ :: rest
    ∧ stretch (set_triggerModules (moduleOrder p) p1) p' rest
    ∧ _constructors p1 = _constructors p
    ∧ _moduleErrors p1 = ∅.
Proof.
  intros Hb Hempty Hrun.
  pose proof (parseEvents_spec events p Hb Hempty) as Hspec.
  pose proof (run_normalisers_spec (moduleOrder p) events p (built_instances _ Hb)) as Hnorm.
  destruct (run_normalisers _ _ _) as [[[events' p1] tr1]|[[e p1] tr1]|];
    [|congruence|done].
  destruct Hnorm as (Hch & Hs & Hsnap & _).
  destruct Hspec as (p3 & tr3 & p4 & tr4 & p5 & tr5 & Hr2 & _ & _ & _ & Heq & Hst3 & Hst4 & Hst5).
  rewrite Heq in Hrun. simplify_eq.
  assert (moduleOrder p1 = moduleOrder p) as Ho by by destruct Hs as (_ & _ & ? & _).
  rewrite Ho in *.
  exists events', p1, tr1, (tr3 ++ tr4 ++ tr5). split_and!; try done.
  - eapply stretch_app; [exact Hst3|]. by eapply stretch_app.
  - by destruct Hs as (_ & ? & _).
  - unfold snapshot in Hsnap. congruence.
Qed.

(** ** C1 *)

(** C1, as it holds. In a run on a freshly built parser, once the
    [triggerEvent] of a module [b] has thrown, a module [a] that depends on
    [b], directly or through other modules, receives no further event (the
    [complete] event included) and is not live at the end; its entry in
    [_moduleErrors] is a cascade error that names a module which [a] declares
    as a dependency and which has an entry itself. No module gets an entry
    unless it threw or depends on a module that threw. *)
Theorem cascade_excludes_dependents p events p' tr t1 b x t2 a :
  built p → _moduleErrors p = ∅ →
  parseEvents events p = Ok (p', tr) →
  tr = t1 ++ Threw b x :: t2 →
  depends_on (_constructors p) a b →
  (a ∉ recipients t2)
  ∧ (a ∉ _triggerModules p')
  ∧ (∃ dep, _moduleErrors p' !! a = Some (DependencyCascadeError dep)
            ∧ declares (_constructors p) a dep
            ∧ is_Some (_moduleErrors p' !! dep))
  ∧ (∀ c, is_Some (_moduleErrors p' !! c) →
          ∃ b' x', Threw b' x' ∈ tr ∧ affected_by (_constructors p) b' c).
Proof.
  intros Hb Hempty Hrun Hsplit Hab.
  destruct (parseEvents_stretch _ _ _ _ Hb Hempty Hrun)
    as (events' & p1 & tr1 & rest & _ & Hch & Htr & Hst & Hreg & He1).
  destruct (normalise_chain_quiet _ _ _ _ Hch) as (Hnorm & _ & _ & Hquiet).
  destruct (stretch_isolates _ _ _ Hst (λ _, False)) as [Hiso Hout]; [done|].
  simpl in Hiso, Hout. rewrite Hreg in Hiso, Hout.
  assert (Threw b x ∈ rest) as Hin.
  { assert (Threw b x ∈ tr) as Hin by (rewrite Hsplit; set_solver).
    rewrite Htr in Hin. apply elem_of_app in Hin as [Hin|Hin]; [by destruct (Hquiet b x)|].
    by apply elem_of_cons in Hin as [?|?]. }
  split_and!.
  - eapply (isolates_after_throw (_constructors p) (λ _, False) t1 b x t2);
      [|by right].
    rewrite <- Hsplit, Htr. apply isolates_app.
    destruct (normalise_isolates (_constructors p) (λ _, False) tr1 Hnorm) as [? ->].
    done.
  - apply Hout. eapply out_after_throw; [done|by right].
  - pose proof (stretch_running _ _ _ Hst) as Hr'.
    pose proof (running_errors _ Hr') as Hok.
    destruct (stretch_setup _ _ _ Hst) as (_ & Hreg' & _). simpl in Hreg'.
    rewrite Hreg', Hreg in Hok.
    eapply errors_ok_depends; [done| |done].
    by eapply (stretch_threw _ _ _ Hst).
  - intros c Hc. destruct (stretch_explained _ _ _ Hst c Hc) as [Hold|(b' & x' & ? & Haff)].
    + simpl in Hold. rewrite He1, lookup_empty in Hold. by destruct Hold.
    + simpl in Haff. rewrite Hreg in Haff. exists b', x'. split; [|done].
      rewrite Htr. set_solver.
Qed.

(** ** C3 *)

Lemma chained_all_ok s l :
  snapshot_ok s → chained s l → Forall snapshot_ok (s :: l).
Proof.
  revert s. induction l as [|s1 l IH]; intros s Hok Hch.
  - by constructor.
  - destruct Hch as (_ & Hok1 & Hch). constructor; auto.
Qed.

Lemma chained_le s l : ∀ i j s1 s2,
  chained s l → i ≤ j →
  (s :: l) !! i = Some s1 → (s :: l) !! j = Some s2 → snapshot_step s1 s2.
Proof.
  revert s. induction l as [|s' l IH]; intros s i j s1 s2 Hch Hij Hi Hj.
  - destruct i, j; simplify_eq/=; apply snapshot_step_refl.
  - destruct Hch as (Hstep & _ & Hch). destruct i as [|i], j as [|j]; simplify_eq/=.
    + apply snapshot_step_refl.
    + eapply snapshot_step_trans; [exact Hstep|].
      by eapply (IH s' 0 j); [|lia|..].
    + lia.
    + by eapply (IH s' i j); [|lia|..].
Qed.

(** C3. Take the values of [_triggerModules] and [_moduleErrors] after each
    assignment to either during a run on a freshly built parser, from the
    copy of [moduleOrder] to the end. In each of them no live module has an
    entry in [_moduleErrors]; from an earlier to a later one the live modules
    are a sublist of what they were, the modules with an entry still have
    one, and a module that had an entry is not live. *)
Theorem live_and_failed_disjoint p events p' tr :
  built p → _moduleErrors p = ∅ →
  parseEvents events p = Ok (p', tr) →
  head (snapshots tr) = Some (moduleOrder p, ∅)
  ∧ last (snapshots tr) = Some (snapshot p')
  ∧ (∀ i s, snapshots tr !! i = Some s → ∀ m, m ∈ s.1 → s.2 !! m = None)
  ∧ (∀ i j s s', i ≤ j →
       snapshots tr !! i = Some s → snapshots tr !! j = Some s' →
       s'.1 `sublist_of` s.1
       ∧ ∀ m, is_Some (s.2 !! m) → is_Some (s'.2 !! m) ∧ m ∉ s'.1).
Proof.
  intros Hb Hempty Hrun.
  destruct (parseEvents_stretch _ _ _ _ Hb Hempty Hrun)
    as (events' & p1 & tr1 & rest & _ & Hch & -> & Hst & _ & He1).
  destruct (normalise_chain_quiet _ _ _ _ Hch) as (_ & _ & Hsnap1 & _).
  rewrite snapshots_app, Hsnap1. simpl.
  pose proof (stretch_chained _ _ _ Hst) as Hchain.
  pose proof (stretch_last _ _ _ Hst) as Hlast.
  unfold snapshot at 1 in Hchain. unfold snapshot at 1 in Hlast.
  simpl in Hchain, Hlast. rewrite He1 in Hchain, Hlast.
  assert (snapshot_ok (moduleOrder p, (∅ : gmap string ModuleError))) as Hok0.
  { split; simpl; [by apply built_NoDup|done]. }
  pose proof (chained_all_ok _ _ Hok0 Hchain) as Hall.
  rewrite Forall_lookup in Hall.
  split_and!.
  - done.
  - rewrite last_cons. destruct (last (snapshots rest)); simpl in *; congruence.
  - intros i s Hi. by apply (Hall i s Hi).
  - intros i j s s' Hij Hi Hj.
    destruct (chained_le _ _ i j s s' Hchain Hij Hi Hj) as [Hsub Hmono].
    split; [done|]. intros m Hm. split; [auto|].
    intros Hin. destruct (Hall j s' Hj) as [_ Hnone].
    specialize (Hmono m Hm). rewrite (Hnone m Hin) in Hmono. by destruct Hmono.
Qed.

(** ** C6 *)


(** ** C7 *)



End run_facts.

(** * Facts about [generateResults] *)

Section results_facts.
Context {H : Host}.
Implicit Types (p : Parser) (tr : list Obs).

Section sorting.
Variable key : string → Z.

Lemma sort_insert_Permutation x l : sort_insert (λ a b, (key a - key b)%Z) x l ≡ₚ x :: l.
Proof.
  induction l as [|y l IH]; simpl; [done|].
  destruct (decide _); [done|]. rewrite IH. apply Permutation_swap.
Qed.

Lemma array_sort_Permutation l : array_sort (λ a b, (key a - key b)%Z) l ≡ₚ l.
Proof.
  induction l as [|x l IH]; simpl; [done|].
  by rewrite sort_insert_Permutation, IH.
Qed.

Lemma sort_insert_sorted x l :
  StronglySorted (λ a b, (key a ≤ key b)%Z) l →
  StronglySorted (λ a b, (key a ≤ key b)%Z) (sort_insert (λ a b, (key a - key b)%Z) x l).
Proof.
  induction 1 as [|y l Hl IH Hy]; simpl.
  - repeat constructor.
  - destruct (decide _) as [Hxy|Hxy].
    + constructor; [by constructor|]. constructor; [lia|].
      eapply Forall_impl; [exact Hy|]. simpl. intros; lia.
    + constructor; [done|]. rewrite sort_insert_Permutation.
      constructor; [lia|done].
Qed.

Lemma array_sort_sorted l :
  StronglySorted (λ a b, (key a ≤ key b)%Z) (array_sort (λ a b, (key a - key b)%Z) l).
Proof.
  induction l as [|x l IH]; simpl; [constructor|by apply sort_insert_sorted].
Qed.



(** Sorting what is sorted changes nothing. *)
Lemma array_sort_id l :
  StronglySorted (λ a b, (key a ≤ key b)%Z) l → array_sort (λ a b, (key a - key b)%Z) l = l.
Proof.
  induction 1 as [|x l Hl IH Hx]; simpl; [done|]. rewrite IH.
  destruct Hx as [|y l Hxy _]; simpl; [done|].
  rewrite decide_True by lia. done.
Qed.
End sorting.


Lemma displayOrder_of_set_moduleOrder o p m :
  displayOrder_of (set_moduleOrder o p) m = displayOrder_of p m.
Proof. done. Qed.

(** ** C8 *)


(** ** C10 *)

(** C10. When [generateResults] returns, calling it again on the parser as
    the first call left it returns the same entries in the same order, calls
    [output()] on the same modules, and leaves the parser as it is. *)
Theorem generateResults_idempotent p results p' tr :
  generateResults p = Ok (results, p', tr) →
  generateResults p' = Ok (results, p', tr).
Proof.
  unfold generateResults.
  destruct (list_find _ (moduleOrder p)) as [[i m]|] eqn:Hfind; [done|].
  destruct (fold_left _ _ _) as [results0 tr0] eqn:Hloop.
  intros Heq. simplify_eq. simpl.
  set (order := array_sort _ (moduleOrder p)) in *.
  destruct (list_find _ order) as [[i m]|] eqn:Hfind'.
  { apply list_find_Some in Hfind' as (Hi & Hnone & _).
    apply list_find_None in Hfind. rewrite Forall_forall in Hfind.
    destruct (Hfind m); [|done].
    rewrite <- (array_sort_Permutation (displayOrder_of p) (moduleOrder p)).
    by eapply list_elem_of_lookup_2. }
  assert (array_sort
            (λ a b, (displayOrder_of (set_moduleOrder order p) a
                     - displayOrder_of (set_moduleOrder order p) b)%Z) order
          = order) as ->.
  { apply (array_sort_id (displayOrder_of p)).
    apply (array_sort_sorted (displayOrder_of p)). }
  change (set_moduleOrder order (set_moduleOrder order p))
    with (set_moduleOrder order p).
  by rewrite Hloop.
Qed.
End results_facts.

(** * The statements at concrete registries *)

Lemma built_parser_built (reg : list (string * @ModuleClass Demo.host)) :
  NoDup (nodes_of (_constructors (Demo.parser reg))) →
  (if buildModules (Demo.parser reg) is Ok _ then True else False) →
  built (Demo.built_parser reg)
  ∧ _moduleErrors (Demo.built_parser reg) = ∅
  ∧ _constructors (Demo.built_parser reg) = _constructors (Demo.parser reg).
Proof.
  intros Hnd Hok. unfold Demo.built_parser.
  destruct (buildModules (Demo.parser reg)) as [[p tr]| |] eqn:Hbuild; try done.
  destruct (buildModules_built _ _ _ Hnd Hbuild) as (? & ? & ? & _).
  split_and!; [done| |done]. etrans; [eassumption|done].
Qed.


Lemma instantiated_same_setup {H : Host} (p p' : Parser) :
  instantiated p → same_setup p p' → instantiated p'.
Proof. intros Hi (Hm & _ & Ho & _). unfold instantiated. by rewrite Hm, Ho. Qed.

(** C4 at the registry [Demo.chain]. *)
Lemma buildModules_dependencies_first_witness :
  ∃ order,
    order_after (buildModules (Demo.parser Demo.chain)) = Some order
    ∧ (∀ a b, declares Demo.chain a b → before order b a)
    ∧ NoDup order
    ∧ (∀ m, m ∈ order ↔ m ∈ nodes_of Demo.chain).
Proof.
  apply (buildModules_dependencies_first (Demo.parser Demo.chain)).
  - vm_compute. repeat constructor; set_solver.
  - vm_compute. repeat constructor.
  - eapply (resolution_sound Demo.chain).
    + vm_compute. repeat constructor; set_solver.
    + vm_compute. reflexivity.
Defined.


(** C9 as stated fails at the registry [Demo.crossing]: [a] is registered
    before [b], neither depends on the other, and [buildModules] puts [b]
    before [a]. *)
Lemma registration_order_not_preserved :
  ¬ preserves_registration_order (Demo.parser Demo.crossing).
Proof.
  intros Hkeep.
  assert (∀ x y, declares Demo.crossing x y → x = "a" ∧ y = "c") as Hdecl.
  { intros x y (cls & Hin & Hdep). unfold Demo.crossing in Hin.
    repeat (apply elem_of_cons in Hin as [Hin|Hin]; [simplify_eq/=; set_solver|]).
    by apply elem_of_nil in Hin. }
  assert (∀ x y, depends_on Demo.crossing x y → x = "a" ∧ y = "c") as Hdep.
  { induction 1 as [x y Hxy|x y z Hxy _ [-> _]]; [auto|].
    by destruct (Hdecl _ _ Hxy) as [_ ?]. }
  specialize (Hkeep ["c"; "b"; "a"] "a" "b").
  destruct Hkeep as (i & j & Hi & Hj & Hij).
  - vm_compute. reflexivity.
  - exists 0, 1. by split_and!; [..|lia].
  - intros Hd. by destruct (Hdep _ _ Hd).
  - intros Hd. by destruct (Hdep _ _ Hd).
  - destruct i as [|[|[|i]]], j as [|[|[|j]]]; simplify_eq/=; lia.
Qed.

(** No order can keep the promise at that registry: to have the dependency
    [c] before [a] it must give up the registration order of [a] and [b] or
    that of [b] and [c]. *)
Lemma registration_order_unsatisfiable (order : list string) :
  NoDup order → before order "c" "a" → before order "a" "b" → ¬ before order "b" "c".
Proof.
  intros Hnd (i1 & j1 & Hc & Ha & ?) (i2 & j2 & Ha' & Hb & ?) (i3 & j3 & Hb' & Hc' & ?).
  pose proof (NoDup_lookup _ _ _ _ Hnd Ha Ha').
  pose proof (NoDup_lookup _ _ _ _ Hnd Hb Hb').
  pose proof (NoDup_lookup _ _ _ _ Hnd Hc Hc'). lia.
Qed.

(** C9, as it holds, at the registry [Demo.independent]. *)
Lemma buildModules_reverses_registration_witness :
  order_after (buildModules (Demo.parser Demo.independent)) = Some ["b"; "a"].
Proof.
  destruct (buildModules_reverses_registration (Demo.parser Demo.independent))
    as [_ Horder].
  - vm_compute. repeat constructor; set_solver.
  - apply Horder. vm_compute. repeat constructor.
Defined.

Lemma demo_run reg events :
  (if parseEvents events (Demo.built_parser reg) is Ok _ then True else False) →
  parseEvents events (Demo.built_parser reg)
  = Ok (Demo.final reg events, Demo.trace reg events).
Proof.
  unfold Demo.final, Demo.trace.
  by destruct (parseEvents events (Demo.built_parser reg)) as [[p tr]| |].
Qed.

(** C1, as it holds, at the registry [Demo.chain_faulty] and one event on
    which [b] throws. *)
Lemma cascade_excludes_dependents_witness :
  built (Demo.built_parser Demo.chain_faulty)
  ∧ _moduleErrors (Demo.built_parser Demo.chain_faulty) = ∅
  ∧ @Threw Demo.host "b" "boom" ∈ Demo.trace Demo.chain_faulty Demo.one_cast
  ∧ depends_on (_constructors (Demo.built_parser Demo.chain_faulty)) "a" "b"
  ∧ ("a" ∉ _triggerModules (Demo.final Demo.chain_faulty Demo.one_cast))
  ∧ ∃ dep,
      _moduleErrors (Demo.final Demo.chain_faulty Demo.one_cast) !! "a"
      = Some (DependencyCascadeError dep)
      ∧ declares (_constructors (Demo.built_parser Demo.chain_faulty)) "a" dep
      ∧ is_Some (_moduleErrors (Demo.final Demo.chain_faulty Demo.one_cast) !! dep).
Proof.
  set (p := Demo.built_parser Demo.chain_faulty).
  set (p' := Demo.final Demo.chain_faulty Demo.one_cast).
  destruct (built_parser_built Demo.chain_faulty) as (Hb & He & Hreg);
    [vm_compute; repeat constructor; set_solver|vm_compute; exact I|].
  assert (@Threw Demo.host "b" "boom" ∈ Demo.trace Demo.chain_faulty Demo.one_cast)
    as Hin.
  { vm_compute. repeat first [apply list_elem_of_here | apply list_elem_of_further]. }
  assert (depends_on (_constructors p) "a" "b") as Hdep.
  { apply tc_l with "m"; [|apply tc_once].
    - eexists. split; [vm_compute; apply list_elem_of_here|].
      simpl. apply list_elem_of_here.
    - eexists. split; [vm_compute; apply list_elem_of_further, list_elem_of_here|].
      simpl. apply list_elem_of_here. }
  destruct (list_elem_of_split _ _ Hin) as (t1 & t2 & Hsplit).
  destruct (cascade_excludes_dependents p Demo.one_cast p'
              (Demo.trace Demo.chain_faulty Demo.one_cast)
              t1 "b" "boom" t2 "a") as (_ & Hlive & Hentry & _);
    [done|done|apply demo_run; vm_compute; exact I|done|done|].
  by split_and!.
Defined.

(** C1 as stated fails at the same run: [a] depends on [b] through [m], [b]
    throws, and the entry of [a] names [m], not [b]. *)
Lemma cascade_names_the_direct_dependency :
  depends_on Demo.chain_faulty "a" "b"
  ∧ @Threw Demo.host "b" "boom" ∈ Demo.trace Demo.chain_faulty Demo.one_cast
  ∧ _moduleErrors (Demo.final Demo.chain_faulty Demo.one_cast) !! "a"
    = Some (DependencyCascadeError "m")
  ∧ _moduleErrors (Demo.final Demo.chain_faulty Demo.one_cast) !! "a"
    ≠ Some (DependencyCascadeError "b").
Proof.
  set (p' := Demo.final Demo.chain_faulty Demo.one_cast).
  assert (_moduleErrors p' !! "a" = Some (DependencyCascadeError "m")) as Ha
    by (vm_compute; reflexivity).
  split_and!; [| |done|by rewrite Ha].
  2:{ vm_compute. repeat first [apply list_elem_of_here | apply list_elem_of_further]. }
  apply tc_l with "m"; [|apply tc_once].
  - eexists. split; [apply list_elem_of_here|simpl; apply list_elem_of_here].
  - eexists. split; [apply list_elem_of_further, list_elem_of_here|].
    simpl. apply list_elem_of_here.
Qed.

(** C2 at the registry [Demo.independent_faulty] and no event: the build
    order is [b], [a]; [b] throws on [init]; [a] is among the live modules
    all along and receives [complete], but [init] it does not receive. *)
Theorem skipped_after_throw :
  head (snapshots (Demo.trace Demo.independent_faulty [])) = Some (["b"; "a"], ∅)
  ∧ Forall (λ s, "a" ∈ s.1) (snapshots (Demo.trace Demo.independent_faulty []))
  ∧ deliveries (Demo.trace Demo.independent_faulty [])
    = [("b", Demo.init_at 0); ("a", Demo.complete_at 0)].
Proof.
  set (tr := Demo.trace Demo.independent_faulty []).
  split_and!; [vm_compute; reflexivity| |vm_compute; reflexivity].
  vm_compute. repeat constructor.
  all: repeat first [apply list_elem_of_here | apply list_elem_of_further].
Qed.

(** The other way in which a failure reaches a module it should not: at the
    registry [Demo.diamond] the cascade from [a] comes to [c] twice, the
    second time [indexOf] finds it no more and [splice(-1, 1)] removes the
    last live module, [d], which receives no event at all and has no entry
    in [_moduleErrors]. *)
Example innocent_module_removed :
  head (snapshots (Demo.trace Demo.diamond [])) = Some (["a"; "b"; "c"; "d"], ∅)
  ∧ ¬ affected_by Demo.diamond "a" "d"
  ∧ recipients (Demo.trace Demo.diamond []) = ["a"]
  ∧ _triggerModules (Demo.final Demo.diamond []) = []
  ∧ _moduleErrors (Demo.final Demo.diamond []) !! "d" = None.
Proof.
  set (p' := Demo.final Demo.diamond []).
  set (tr := Demo.trace Demo.diamond []).
  split_and!; [vm_compute; reflexivity| |vm_compute; reflexivity..].
  intros [?|Hd]; [done|].
  assert (∀ x y, depends_on Demo.diamond x y → x ≠ "d") as Hno; [|by eapply Hno].
  assert (∀ x y, declares Demo.diamond x y → x ≠ "d") as Hdecl.
  { intros x y (cls & Hin & Hdep) ->. unfold Demo.diamond in Hin.
    repeat (apply elem_of_cons in Hin as [Hin|Hin];
            [simplify_eq; vm_compute in Hdep; by apply elem_of_nil in Hdep|]).
    by apply elem_of_nil in Hin. }
  induction 1; eauto.
Qed.

(** C3 at the registry [Demo.chain_faulty] and one event on which [b]
    throws. *)
Lemma live_and_failed_disjoint_witness :
  built (Demo.built_parser Demo.chain_faulty)
  ∧ _moduleErrors (Demo.built_parser Demo.chain_faulty) = ∅
  ∧ length (snapshots (Demo.trace Demo.chain_faulty Demo.one_cast)) = 7
  ∧ (∀ i s,
       snapshots (Demo.trace Demo.chain_faulty Demo.one_cast) !! i = Some s →
       ∀ m, m ∈ s.1 → s.2 !! m = None)
  ∧ (∀ i j s s', i ≤ j →
       snapshots (Demo.trace Demo.chain_faulty Demo.one_cast) !! i = Some s →
       snapshots (Demo.trace Demo.chain_faulty Demo.one_cast) !! j = Some s' →
       s'.1 `sublist_of` s.1
       ∧ ∀ m, is_Some (s.2 !! m) → is_Some (s'.2 !! m) ∧ m ∉ s'.1).
Proof.
  set (p := Demo.built_parser Demo.chain_faulty).
  set (tr := Demo.trace Demo.chain_faulty Demo.one_cast).
  destruct (built_parser_built Demo.chain_faulty) as (Hb & He & Hreg);
    [vm_compute; repeat constructor; set_solver|vm_compute; exact I|].
  destruct (live_and_failed_disjoint p Demo.one_cast
              (Demo.final Demo.chain_faulty Demo.one_cast) tr)
    as (_ & _ & Hdisjoint & Hmono);
    [done|done|apply demo_run; vm_compute; exact I|].
  split_and!; [done|done|vm_compute; reflexivity|done|done].
Defined.





(** C10 at the same parser. *)
Lemma generateResults_idempotent_witness :
  ∃ results p' tr,
    generateResults (Demo.final Demo.mixed Demo.one_cast) = Ok (results, p', tr)
    ∧ moduleOrder p' ≠ moduleOrder (Demo.final Demo.mixed Demo.one_cast)
    ∧ generateResults p' = Ok (results, p', tr).
Proof.
  set (p := Demo.final Demo.mixed Demo.one_cast).
  destruct (generateResults p) as [[[results p'] tr]| |] eqn:Hrun;
    [|by vm_compute in Hrun..].
  exists results, p', tr. split_and!; [done| |].
  - assert (generateResults p = Ok (omap (report_entry p) ["d"; "c"; "b"; "a"],
                                    set_moduleOrder ["d"; "c"; "b"; "a"] p,
                                    [OutputCalled "d"; OutputCalled "b"; OutputCalled "a"]))
      as Hval by (vm_compute; reflexivity).
    rewrite Hval in Hrun. injection Hrun as <- <- <-. by vm_compute.
  - by apply (generateResults_idempotent p).
Defined.

(** * Further facts about the registry and [buildModules] *)

Section registry_facts.
Context {H : Host}.
Implicit Types (reg target source mods : list (string * ModuleClass)) (p : Parser).

Lemma constructor_of_assign_key key cls target k :
  constructor_of (assign_key key cls target) k
  = if decide (key = k) then Some cls else constructor_of target k.
Proof.
  induction target as [|[key' cls'] target IH]; simpl; [done|].
  destruct (decide (key' = key)) as [->|Hne]; simpl.
  - by destruct (decide (key = k)).
  - rewrite IH. destruct (decide (key' = k)) as [->|]; [|done].
    by rewrite decide_False by congruence.
Qed.

Lemma constructor_of_app reg1 reg2 k :
  constructor_of (reg1 ++ reg2) k
  = match constructor_of reg1 k with
    | Some cls => Some cls
    | None => constructor_of reg2 k
    end.
Proof.
  induction reg1 as [|[key cls] reg1 IH]; simpl; [done|].
  by destruct (decide (key = k)).
Qed.

Lemma constructor_of_None reg k : k ∉ nodes_of reg → constructor_of reg k = None.
Proof.
  induction reg as [|[key cls] reg IH]; simpl; [done|].
  intros Hk. apply not_elem_of_cons in Hk as [Hne Hk].
  rewrite decide_False by congruence. auto.
Qed.

Lemma nodes_of_assign_key key cls target :
  nodes_of (assign_key key cls target)
  = if decide (key ∈ nodes_of target) then nodes_of target
    else nodes_of target ++ [key].
Proof.
  induction target as [|[key' cls'] target IH]; [done|].
  assert (∀ l : list (string * ModuleClass),
            nodes_of ((key', cls') :: l) = key' :: nodes_of l) as Hcons by done.
  cbn [assign_key]. destruct (decide (key' = key)) as [->|Hne].
  - rewrite !Hcons. by rewrite decide_True by left.
  - rewrite !Hcons, IH. destruct (decide (key ∈ nodes_of target)) as [Hin|Hnin].
    + by rewrite decide_True by (by right).
    + rewrite decide_False; [done|].
      intros [?|?]%elem_of_cons; [congruence|done].
Qed.

Lemma object_assign_keys source : ∀ target,
  NoDup (nodes_of target) →
  NoDup (nodes_of (object_assign target source))
  ∧ nodes_of target `prefix_of` nodes_of (object_assign target source)
  ∧ ∀ k, k ∈ nodes_of (object_assign target source)
         ↔ k ∈ nodes_of target ∨ k ∈ nodes_of source.
Proof.
  unfold object_assign.
  induction source as [|[key cls] source IH]; intros target Hnd; simpl.
  { split_and!; [done|done|]. intros k. rewrite elem_of_nil. tauto. }
  pose proof (nodes_of_assign_key key cls target) as Hstep.
  destruct (IH (assign_key key cls target)) as (Hnd' & Hpre & Hin).
  { rewrite Hstep. destruct (decide _); [done|].
    apply NoDup_app. split_and!; [done| |apply NoDup_singleton].
    intros x Hx ->%list_elem_of_singleton. done. }
  split_and!; [done| |].
  - etrans; [|exact Hpre]. rewrite Hstep.
    destruct (decide _); [done|]. by apply prefix_app_r.
  - intros k. rewrite Hin, Hstep, elem_of_cons. simpl.
    destruct (decide (key ∈ nodes_of target)) as [Hk|Hk].
    + split; [intros [?|?]; auto|]. intros [?|[->|?]]; auto.
    + rewrite elem_of_app, list_elem_of_singleton. tauto.
Qed.

(** X1. After [addModules(mods)] the class found under a key is the one
    [mods] gives it, the last one if [mods] lists the key more than once;
    a key that [mods] does not mention keeps the class it had. *)
Theorem addModules_lookup mods p k :
  constructor_of (_constructors (addModules mods p)) k
  = match constructor_of (reverse mods) k with
    | Some cls => Some cls
    | None => constructor_of (_constructors p) k
    end.
Proof.
  unfold addModules, object_assign. simpl. generalize (_constructors p).
  induction mods as [|[key cls] mods IH]; intros target; simpl; [done|].
  rewrite IH, reverse_cons, constructor_of_app, constructor_of_assign_key. simpl.
  destruct (constructor_of (reverse mods) k); [done|].
  by destruct (decide (key = k)).
Qed.

(** X2. [addModules] keeps the keys of the registry distinct and the keys
    that were there at their place: new keys are appended, and the keys
    afterwards are those that were there and those of [mods]. *)
Theorem addModules_keys mods p :
  NoDup (nodes_of (_constructors p)) →
  NoDup (nodes_of (_constructors (addModules mods p)))
  ∧ nodes_of (_constructors p) `prefix_of` nodes_of (_constructors (addModules mods p))
  ∧ ∀ k, k ∈ nodes_of (_constructors (addModules mods p))
         ↔ k ∈ nodes_of (_constructors p) ∨ k ∈ nodes_of mods.
Proof.
  intros Hnd. unfold addModules. simpl.
  destruct (object_assign_keys mods (_constructors p) Hnd) as (Hnd' & Hpre & Hin).
  by split_and!.
Qed.

(** X3. The registry of a new parser has distinct keys, those of
    [defaultModules], and it is [defaultModules] itself when that lists no
    key twice. *)
Theorem new_Parser_registry defaultModules start_time end_time initial :
  NoDup (nodes_of (_constructors (new_Parser defaultModules start_time end_time initial)))
  ∧ (∀ k, k ∈ nodes_of (_constructors (new_Parser defaultModules start_time end_time initial))
          ↔ k ∈ nodes_of defaultModules)
  ∧ (NoDup (nodes_of defaultModules) →
     _constructors (new_Parser defaultModules start_time end_time initial)
     = defaultModules).
Proof.
  simpl. destruct (object_assign_keys defaultModules []) as (Hnd & _ & Hin);
    [constructor|].
  split_and!; [done| |].
  - intros k. rewrite Hin. simpl. rewrite elem_of_nil. tauto.
  - clear. unfold object_assign.
    cut (∀ target, NoDup (nodes_of (target ++ defaultModules)) →
           fold_left (λ acc kv, assign_key kv.1 kv.2 acc) defaultModules target
           = target ++ defaultModules).
    { intros Hcut Hnd. by apply (Hcut []). }
    induction defaultModules as [|[key cls] source IH]; intros target Hnd; simpl.
    { by rewrite app_nil_r. }
    assert (assign_key key cls target = target ++ [(key, cls)]) as ->.
    { assert (key ∉ nodes_of target) as Hk.
      { unfold nodes_of in *. rewrite fmap_app in Hnd.
        apply NoDup_app in Hnd as (_ & Hnd & _). intros Hin. apply (Hnd _ Hin).
        left. }
      clear -Hk. induction target as [|[key' cls'] target IHt]; simpl; [done|].
      unfold nodes_of in Hk. simpl in Hk.
      apply not_elem_of_cons in Hk as [Hne Hk].
      rewrite decide_False by congruence. by rewrite IHt. }
    rewrite IH; rewrite <- app_assoc; done.
Qed.
End registry_facts.

Section build_more.
Context {H : Host}.
Implicit Types (reg : list (string * ModuleClass)) (p : Parser).

Lemma dependencies_registered_edges reg :
  Forall (λ e, e.1 ∈ nodes_of reg ∧ e.2 ∈ nodes_of reg) (edges_of reg) →
  dependencies_registered reg.
Proof.
  rewrite Forall_forall. intros Hknown.
  apply Forall_forall. intros [k cls] Hin. apply Forall_forall. intros dep Hdep.
  apply (Hknown (k, dep)). apply elem_of_edges_of. by exists cls.
Qed.

(** X4. When some module declares a dependency that is not a key of the
    registry, [buildModules] throws out of the resolver: [moduleOrder] is
    not assigned and no constructor is called. *)
Theorem buildModules_unregistered_dependency p :
  ¬ dependencies_registered (_constructors p) →
  buildModules p = Throws (ResolutionFailed Toposort.UnknownNode, p, []).
Proof.
  intros Hnot. unfold buildModules. rewrite array_unfold.
  destruct (decide _) as [Hknown|]; [|done].
  by destruct Hnot; apply dependencies_registered_edges.
Qed.

Lemma initialise_modules order : ∀ p p' tr,
  initialise order p = Ok (p', tr) →
  ∀ m, modules p' !! m
       = if decide (m ∈ order) then constructor_of (_constructors p) m
         else modules p !! m.
Proof.
  induction order as [|x order IH]; intros p p' tr Hrun m; simpl in Hrun.
  { simplify_eq. rewrite decide_False; [done|]. apply not_elem_of_nil. }
  destruct (constructor_of _ x) as [cls|] eqn:Hx; [|done].
  destruct (construct cls (heap p)) as [h|]; [|done].
  destruct (initialise order _) as [[p2 tr2]|[[e p2] tr2]|] eqn:Hrest; simplify_eq.
  rewrite (IH _ _ _ Hrest m). simpl.
  destruct (decide (m ∈ order)) as [Hin|Hnin].
  - rewrite decide_True; [done|]. by right.
  - destruct (decide (m = x)) as [->|Hne].
    + rewrite decide_True by left. by rewrite lookup_insert_eq.
    + rewrite decide_False.
      * by rewrite lookup_insert_ne.
      * intros [?|?]%elem_of_cons; done.
Qed.

(** X5. After a [buildModules()] that returns, every key of the registry
    has an instance of the class registered under it, every other key has
    what it had; the constructors were called once each in the order of
    [moduleOrder], and the fields of the trigger pass are untouched. *)
Theorem buildModules_instances p p' tr :
  NoDup (nodes_of (_constructors p)) →
  buildModules p = Ok (p', tr) →
  (∀ m, modules p' !! m
        = match constructor_of (_constructors p) m with
          | Some cls => Some cls
          | None => modules p !! m
          end)
  ∧ tr = Constructed <$> moduleOrder p'
  ∧ _constructors p' = _constructors p
  ∧ _triggerModules p' = _triggerModules p
  ∧ _moduleErrors p' = _moduleErrors p.
Proof.
  intros Hnd. unfold buildModules.
  destruct (Toposort.array _ _) as [sorted| |] eqn:Hsort; try done.
  intros Hinit.
  destruct (resolution_sound _ _ Hnd Hsort) as (Hperm & _).
  pose proof (initialise_modules _ _ _ _ Hinit) as Hmods.
  apply initialise_Ok in Hinit as (-> & Hord & Hreg & Hlive & Herr & _).
  simpl in *. rewrite Hord. split_and!; try done.
  intros m. rewrite Hmods.
  destruct (decide (m ∈ reverse sorted)) as [Hin|Hnin].
  - rewrite Hperm in Hin.
    by destruct (constructor_of_Some _ _ Hin) as [cls ->].
  - rewrite Hperm in Hnin. by rewrite constructor_of_None.
Qed.

Lemma initialise_Throws order : ∀ p e p' tr,
  initialise order p = Throws (e, p', tr) →
  ∃ m l1 l2,
    e = ConstructionFailed m ∧ order = l1 ++ m :: l2
    ∧ tr = Constructed <$> l1
    ∧ moduleOrder p' = moduleOrder p
    ∧ _constructors p' = _constructors p
    ∧ (∀ x, modules p' !! x
            = if decide (x ∈ l1) then constructor_of (_constructors p) x
              else modules p !! x)
    ∧ match constructor_of (_constructors p) m with
      | Some cls => construct cls (heap p') = None
      | None => True
      end.
Proof.
  induction order as [|x order IH]; intros p e p' tr Hrun; simpl in Hrun; [done|].
  destruct (constructor_of _ x) as [cls|] eqn:Hx.
  2:{ simplify_eq. exists x, [], order. rewrite Hx. split_and!; try done;
        intros y; by destruct (decide _) as [?%elem_of_nil|]. }
  destruct (construct cls (heap p)) as [h|] eqn:Hc.
  2:{ simplify_eq. exists x, [], order. rewrite Hx. split_and!; try done;
        intros y; by destruct (decide _) as [?%elem_of_nil|]. }
  destruct (initialise order _) as [[p2 tr2]|[[e2 p2] tr2]|] eqn:Hrest; simplify_eq.
  apply IH in Hrest as (m & l1 & l2 & -> & -> & -> & Hord & Hreg & Hmods & Hthrow).
  simpl in *. exists m, (x :: l1), l2. split_and!; try done.
  intros y. rewrite Hmods.
  destruct (decide (y ∈ l1)) as [Hin|Hnin].
  - rewrite decide_True; [done|]. by right.
  - destruct (decide (y = x)) as [->|Hne].
    + rewrite decide_True by left. by rewrite lookup_insert_eq.
    + rewrite decide_False.
      * by rewrite lookup_insert_ne.
      * intros [?|?]%elem_of_cons; done.
Qed.

(** X6. A [buildModules()] that throws does so either in the resolver,
    and then it has changed nothing, or in the constructor of a module [m]:
    then [moduleOrder] is assigned all the same, the modules before [m] in
    it have been constructed and have their instance, and [m] and the
    modules after it have none that they did not have before. *)
Theorem buildModules_throws p e p' tr :
  NoDup (nodes_of (_constructors p)) →
  buildModules p = Throws (e, p', tr) →
  (∃ err, e = ResolutionFailed err ∧ p' = p ∧ tr = [])
  ∨ (∃ m cls l1 l2,
       e = ConstructionFailed m
       ∧ moduleOrder p' = l1 ++ m :: l2
       ∧ NoDup (moduleOrder p')
       ∧ tr = Constructed <$> l1
       ∧ constructor_of (_constructors p) m = Some cls
       ∧ construct cls (heap p') = None
       ∧ (∀ x, x ∈ l1 → modules p' !! x = constructor_of (_constructors p) x)
       ∧ (∀ x, x ∈ m :: l2 → modules p' !! x = modules p !! x)).
Proof.
  intros Hnd. unfold buildModules.
  destruct (Toposort.array _ _) as [sorted|err|] eqn:Hsort; [| |done].
  2:{ intros; simplify_eq. left. by exists err. }
  intros Hinit. right.
  destruct (resolution_sound _ _ Hnd Hsort) as (Hperm & _).
  apply initialise_Throws in Hinit
    as (m & l1 & l2 & -> & Horder & -> & Hord & Hreg & Hmods & Hthrow).
  simpl in *.
  assert (NoDup (l1 ++ m :: l2)) as Hnd' by (by rewrite <- Horder, Hperm).
  destruct (constructor_of_Some (_constructors p) m) as [cls Hcls].
  { rewrite <- Hperm, Horder. set_solver. }
  rewrite Hcls in Hthrow.
  exists m, cls, l1, l2. rewrite Hord, Horder. split_and!; try done.
  - intros x Hx. by rewrite Hmods, decide_True.
  - intros x Hx. rewrite Hmods, decide_False; [done|].
    apply NoDup_app in Hnd' as (_ & Hdisj & _). intros Hin. by apply (Hdisj x).
Qed.
End build_more.

(** X2 at the registry [Demo.independent], to which [Demo.chain] is added. *)
Lemma addModules_keys_witness :
  nodes_of (_constructors (Demo.parser Demo.independent)) = ["a"; "b"]
  ∧ nodes_of (_constructors (addModules Demo.chain (Demo.parser Demo.independent)))
    = ["a"; "b"; "m"]
  ∧ NoDup (nodes_of (_constructors (addModules Demo.chain (Demo.parser Demo.independent)))).
Proof.
  split_and!; [vm_compute; reflexivity..|].
  apply (addModules_keys Demo.chain (Demo.parser Demo.independent)).
  vm_compute. repeat constructor; set_solver.
Defined.

(** X4 at the registry [Demo.dangling]. *)
Lemma buildModules_unregistered_dependency_witness :
  buildModules (Demo.parser Demo.dangling)
  = Throws (ResolutionFailed Toposort.UnknownNode, Demo.parser Demo.dangling, []).
Proof.
  apply (buildModules_unregistered_dependency (Demo.parser Demo.dangling)).
  intros Hreg. apply Forall_cons in Hreg as [Ha _]. simpl in Ha.
  apply Forall_cons in Ha as [Hghost _]. vm_compute in Hghost. set_solver.
Defined.

(** X5 at the registry [Demo.chain]. *)
Lemma buildModules_instances_witness :
  moduleOrder (Demo.built_parser Demo.chain) = ["b"; "m"; "a"]
  ∧ ∀ m, modules (Demo.built_parser Demo.chain) !! m = constructor_of Demo.chain m.
Proof.
  split; [vm_compute; reflexivity|].
  destruct (buildModules (Demo.parser Demo.chain)) as [[p' tr]| |] eqn:Hbuild;
    [|by vm_compute in Hbuild..].
  destruct (buildModules_instances (Demo.parser Demo.chain) p' tr) as (Hmods & _);
    [vm_compute; repeat constructor; set_solver|done|].
  intros m. unfold Demo.built_parser. rewrite Hbuild, Hmods.
  change (_constructors (Demo.parser Demo.chain)) with Demo.chain.
  by destruct (constructor_of Demo.chain m).
Defined.

(** X6 at the registry [Demo.chain_broken]: the constructor of [m] throws
    after [b] has been constructed. *)
Lemma buildModules_throws_witness :
  ∃ p' tr,
    buildModules (Demo.parser Demo.chain_broken)
    = Throws (ConstructionFailed "m", p', tr)
    ∧ moduleOrder p' = ["b"; "m"; "a"]
    ∧ tr = [Constructed "b"]
    ∧ is_Some (modules p' !! "b")
    ∧ modules p' !! "m" = None
    ∧ modules p' !! "a" = None.
Proof.
  destruct (buildModules (Demo.parser Demo.chain_broken))
    as [|[[e p'] tr]|] eqn:Hbuild; [by vm_compute in Hbuild| |by vm_compute in Hbuild].
  destruct (buildModules_throws (Demo.parser Demo.chain_broken) e p' tr)
    as [(err & -> & _)|(m & cls & l1 & l2 & -> & Ho & _ & Htr & _ & _ & Hl1 & Hl2)];
    [vm_compute; repeat constructor; set_solver|done|by vm_compute in Hbuild|].
  assert (buildModules (Demo.parser Demo.chain_broken)
          = Throws (ConstructionFailed "m",
                    set_modules (<["b" := Demo.module_class "B" [] 0 [] true]> ∅)
                      (set_moduleOrder ["b"; "m"; "a"] (Demo.parser Demo.chain_broken)),
                    [Constructed "b"])) as Hval by (vm_compute; reflexivity).
  rewrite Hval in Hbuild. injection Hbuild as <- <- <-.
  eexists _, _. split; [reflexivity|]. split_and!; try (vm_compute; reflexivity).
  vm_compute. eauto.
Defined.

(** * Further facts about the cascade *)

Section cascade_more.
Context {H : Host}.
Implicit Types (reg : list (string * ModuleClass)) (p : Parser).
Implicit Types (tr : list Obs) (err : ModuleError).

Lemma indexOf_None (l : list string) m : m ∉ l → indexOf l m = None.
Proof.
  intros Hm. unfold indexOf.
  destruct (list_find _ l) as [[i y]|] eqn:Hfind; [|done].
  apply list_find_Some in Hfind as (Hi & -> & _).
  destruct Hm. by eapply list_elem_of_lookup_2.
Qed.

(** What is live after a call was live after its splice. *)
Lemma _setModuleError_splice fuel m err p p' tr :
  _setModuleError fuel m err p = Some (p', tr) →
  _triggerModules p'
    `sublist_of` splice_one (indexOf (_triggerModules p) m) (_triggerModules p).
Proof.
  apply (_setModuleError_ind
    (λ m err p p' tr,
       _triggerModules p'
         `sublist_of` splice_one (indexOf (_triggerModules p) m) (_triggerModules p))
    (λ m reg p p' tr, _triggerModules p' `sublist_of` _triggerModules p)).
  - done.
  - auto.
  - intros m0 k cls reg p0 p1 p2 tr1 tr2 _ Hcall Hrest.
    etrans; [exact Hrest|]. etrans; [exact Hcall|]. apply splice_one_sublist.
  - intros m0 err0 p0 p1 tr0 live errors p2 Hrest. exact Hrest.
Qed.

(** X7. On a parser as [buildModules] leaves it, [_setModuleError(mod,
    error)] returns. Afterwards the entry of [mod] is [error]; every module
    that depends on [mod] has a cascade error that names one of its declared
    dependencies, itself [mod] or a dependent of [mod]; the entries of all
    other modules are as they were; neither [mod] nor a dependent of it is
    live; and nothing but [_triggerModules] and [_moduleErrors] has
    changed. *)
Theorem setModuleError_contract m err p :
  built p → m ∈ moduleOrder p → NoDup (_triggerModules p) →
  ∃ p' tr,
    _setModuleError (cascade_fuel p) m err p = Some (p', tr)
    ∧ _moduleErrors p' !! m = Some err
    ∧ (∀ x, depends_on (_constructors p) x m →
            cascaded_from (_constructors p) m (_moduleErrors p') x)
    ∧ (∀ x, ¬ affected_by (_constructors p) m x →
            _moduleErrors p' !! x = _moduleErrors p !! x)
    ∧ (∀ x, affected_by (_constructors p) m x → x ∉ _triggerModules p')
    ∧ _triggerModules p' `sublist_of` _triggerModules p
    ∧ same_setup p p' ∧ heap p' = heap p ∧ _timestamp p' = _timestamp p.
Proof.
  intros Hb Hm Hnd.
  destruct (cascade_terminates m err p Hb Hm) as [[p' tr] Hrun].
  exists p', tr.
  pose proof (_setModuleError_frame _ _ _ _ _ _ Hrun) as (Hs & Hh & Ht & _).
  pose proof (_setModuleError_live _ _ _ _ _ _ Hrun) as (Hsub & Hout).
  pose proof (_setModuleError_errors _ _ _ _ _ _ Hrun (built_acyclic _ Hb))
    as (Hsame & Hentry & Hdeps).
  split_and!; auto.
  intros x Hx. destruct (decide (x = m)) as [->|Hne]; [destruct Hx; by left|].
  destruct (Hsame x Hne) as [?|Hc]; [done|].
  destruct Hx. right. by eapply cascaded_from_depends.
Qed.

Lemma for_dependents_None (f : string → Parser → option (Parser * list Obs))
    m k cls reg0 :
  (∀ q, _constructors q = reg0 → f k q = None) →
  (∀ key q q' tr, f key q = Some (q', tr) → _constructors q' = _constructors q) →
  m ∈ dependencies cls →
  ∀ reg q, (k, cls) ∈ reg → _constructors q = reg0 →
    for_dependents f m reg q = None.
Proof.
  intros Hk Hframe Hdep.
  induction reg as [|[key cls'] reg IH]; intros q Hin Hq; simpl.
  { by apply elem_of_nil in Hin. }
  destruct (decide (m ∈ dependencies cls')) as [Hdep'|Hdep'].
  - destruct (f key q) as [[q1 tr1]|] eqn:Hcall; [|done].
    apply elem_of_cons in Hin as [Heq|Hin].
    { simplify_eq. by rewrite Hk in Hcall. }
    rewrite IH; [done|done|]. apply Hframe in Hcall. congruence.
  - apply elem_of_cons in Hin as [Heq|Hin]; [by simplify_eq|]. by apply IH.
Qed.

(** X8. On a registry in which [mod] depends on itself through a chain of
    declared dependencies, the recursion of [_setModuleError(mod, error)]
    does not come to an end: no depth of recursion is enough for the call
    to return. *)
Theorem setModuleError_cycle fuel m err p :
  depends_on (_constructors p) m m → _setModuleError fuel m err p = None.
Proof.
  revert m err p. induction fuel as [|fuel IH]; intros m err p Hcycle; [done|].
  simpl.
  destruct (depends_on_last _ _ _ Hcycle) as (k & Hkm & Hk).
  assert (depends_on (_constructors p) k k) as Hkk.
  { destruct Hk as [->|Hmk]; [by apply tc_once|].
    eapply tc_l; [exact Hkm|exact Hmk]. }
  destruct Hkm as (cls & Hin & Hdep).
  rewrite (for_dependents_None _ m k cls (_constructors p)); try done.
  - intros q Hq. apply IH. by rewrite Hq.
  - intros key q q' tr Hcall.
    by apply _setModuleError_frame in Hcall as ((_ & ? & _) & _).
Qed.

(** X9. [_setModuleError(mod, error)] for a module that is not live takes
    the last live module out of [_triggerModules] in its place; when that
    module neither is [mod] nor depends on it, it gets no entry in
    [_moduleErrors]. *)
Theorem setModuleError_not_live m err p x :
  built p → m ∈ moduleOrder p → NoDup (_triggerModules p) →
  m ∉ _triggerModules p → last (_triggerModules p) = Some x →
  ∃ p' tr,
    _setModuleError (cascade_fuel p) m err p = Some (p', tr)
    ∧ (x ∉ _triggerModules p')
    ∧ (¬ affected_by (_constructors p) m x →
       _moduleErrors p' !! x = _moduleErrors p !! x).
Proof.
  intros Hb Hm Hnd Hdead Hlast.
  destruct (cascade_terminates m err p Hb Hm) as [[p' tr] Hrun].
  exists p', tr. split_and!; [done| |].
  - pose proof (_setModuleError_splice _ _ _ _ _ _ Hrun) as Hsub.
    rewrite (indexOf_None _ _ Hdead) in Hsub. simpl in Hsub.
    intros Hin. eapply elem_of_sublist in Hin; [|exact Hsub].
    revert Hin. apply delete_NoDup_lookup; [done|].
    rewrite last_lookup in Hlast. by rewrite Nat.sub_1_r.
  - intros Hx.
    pose proof (_setModuleError_errors _ _ _ _ _ _ Hrun (built_acyclic _ Hb))
      as (Hsame & _).
    destruct (decide (x = m)) as [->|Hne]; [destruct Hx; by left|].
    destruct (Hsame x Hne) as [?|Hc]; [done|].
    destruct Hx. right. by eapply cascaded_from_depends.
Qed.
End cascade_more.

Lemma built_live (reg : list (string * @ModuleClass Demo.host)) l :
  NoDup (nodes_of (_constructors (Demo.parser reg))) →
  (if buildModules (Demo.parser reg) is Ok _ then True else False) →
  built (set_triggerModules l (Demo.built_parser reg)).
Proof.
  intros Hnd Hok. destruct (built_parser_built reg Hnd Hok) as (Hb & _).
  eapply built_same_setup; [exact Hb|]. by repeat split.
Qed.

(** X7 at the registry [Demo.chain], all modules live, for [b]. *)
Lemma setModuleError_contract_witness :
  built (set_triggerModules ["b"; "m"; "a"] (Demo.built_parser Demo.chain))
  ∧ ∃ p' tr,
      _setModuleError 3 "b" (RuntimeError ("boom" : @exn Demo.host))
        (set_triggerModules ["b"; "m"; "a"] (Demo.built_parser Demo.chain))
      = Some (p', tr)
      ∧ _moduleErrors p' !! "b" = Some (RuntimeError ("boom" : @exn Demo.host))
      ∧ cascaded_from
          (_constructors (set_triggerModules ["b"; "m"; "a"] (Demo.built_parser Demo.chain)))
          "b" (_moduleErrors p') "m"
      ∧ ("m" ∉ _triggerModules p').
Proof.
  assert (built (set_triggerModules ["b"; "m"; "a"] (Demo.built_parser Demo.chain)))
    as Hb.
  { apply built_live; [vm_compute; repeat constructor; set_solver|vm_compute; exact I]. }
  split; [exact Hb|].
  assert (depends_on
            (_constructors (set_triggerModules ["b"; "m"; "a"] (Demo.built_parser Demo.chain)))
            "m" "b") as Hdep.
  { apply tc_once. eexists.
    split; [vm_compute; apply list_elem_of_further, list_elem_of_here|].
    simpl. apply list_elem_of_here. }
  destruct (setModuleError_contract "b" (RuntimeError ("boom" : @exn Demo.host))
              (set_triggerModules ["b"; "m"; "a"] (Demo.built_parser Demo.chain)))
    as (p' & tr & Hrun & Hentry & Hdeps & _ & Hout & _);
    [exact Hb|vm_compute; set_solver|vm_compute; repeat constructor; set_solver|].
  exists p', tr. split; [exact Hrun|]. split; [exact Hentry|].
  split; [exact (Hdeps "m" Hdep)|]. apply Hout. right. exact Hdep.
Defined.

(** X8 at the registry [Demo.cyclic]. *)
Lemma setModuleError_cycle_witness :
  depends_on Demo.cyclic "a" "a"
  ∧ _setModuleError 1000 "a" (RuntimeError ("boom" : @exn Demo.host))
      (Demo.parser Demo.cyclic) = None.
Proof.
  assert (depends_on Demo.cyclic "a" "a") as Hcycle.
  { apply tc_l with "b"; [|apply tc_once].
    - eexists. split; [apply list_elem_of_here|simpl; apply list_elem_of_here].
    - eexists. split; [apply list_elem_of_further, list_elem_of_here|].
      simpl. apply list_elem_of_here. }
  split; [done|].
  by apply (setModuleError_cycle 1000 "a" _ (Demo.parser Demo.cyclic)).
Defined.

(** X9 at the registry [Demo.diamond] when only [d] is live, for [c]. *)
Lemma setModuleError_not_live_witness :
  built (set_triggerModules ["d"] (Demo.built_parser Demo.diamond))
  ∧ ∃ p' tr,
      _setModuleError 4 "c" (RuntimeError ("boom" : @exn Demo.host))
        (set_triggerModules ["d"] (Demo.built_parser Demo.diamond))
      = Some (p', tr)
      ∧ "d" ∉ _triggerModules p'.
Proof.
  assert (built (set_triggerModules ["d"] (Demo.built_parser Demo.diamond))) as Hb.
  { apply built_live; [vm_compute; repeat constructor; set_solver|vm_compute; exact I]. }
  split; [done|].
  destruct (setModuleError_not_live "c" (RuntimeError ("boom" : @exn Demo.host))
              (set_triggerModules ["d"] (Demo.built_parser Demo.diamond)) "d")
    as (p' & tr & Hrun & Hout & _);
    [done|vm_compute; set_solver|vm_compute; repeat constructor; set_solver
    |vm_compute; set_solver|vm_compute; reflexivity|].
  by exists p', tr.
Defined.

(** * Further facts about the trigger pass *)

Section trigger_more.
Context {H : Host}.
Implicit Types (reg : list (string * ModuleClass)) (p : Parser).
Implicit Types (tr : list Obs) (err : ModuleError) (event : Event).

Lemma set_heap_same p : set_heap (heap p) p = p.
Proof. by destruct p. Qed.

(** The loop over [j] live modules none of which throws on the event. *)
Lemma triggerEvent_loop_quiet event j : ∀ n k p,
  (∀ i m, k ≤ i < k + j → _triggerModules p !! i = Some m →
     ∃ module, modules p !! m = Some module
               ∧ ∀ h, (handleEvent module event h).1 = None) →
  k + j ≤ length (_triggerModules p) →
  ∃ h,
    triggerEvent_loop (j + n) k event p
    = match triggerEvent_loop n (k + j) event (set_heap h p) with
      | Some (p', tr) =>
          Some (p', ((λ m, Triggered m event) <$> take j (drop k (_triggerModules p)))
                      ++ tr)
      | None => None
      end.
Proof.
  induction j as [|j IH]; intros n k p Hquiet Hlen.
  { exists (heap p). rewrite set_heap_same, Nat.add_0_r. simpl.
    by destruct (triggerEvent_loop n k event p) as [[p' tr]|]. }
  destruct (lookup_lt_is_Some_2 (_triggerModules p) k) as [m Hk]; [lia|].
  destruct (Hquiet k m) as (module & Hm & Hcall); [lia|done|].
  specialize (Hcall (heap p)).
  destruct (handleEvent module event (heap p)) as [thrown h0] eqn:Hh.
  simpl in Hcall. subst thrown.
  destruct (IH n (S k) (set_heap h0 p)) as [h Hrest].
  { intros i m' Hi Hi'. apply (Hquiet i m'); [lia|done]. }
  { simpl. lia. }
  exists h. simpl. rewrite Hk, Hm, Hh. rewrite Hrest. simpl.
  replace (k + S j) with (S (k + j)) by lia.
  change (set_heap h (set_heap h0 p)) with (set_heap h p).
  destruct (triggerEvent_loop n (S (k + j)) event (set_heap h p)) as [[p' tr]|];
    [|done].
  by rewrite (drop_S _ _ _ Hk).
Qed.



(** X11. When the handler of a live module [b] throws on an event and the
    handlers of the modules before it do not, the module [a] that follows
    [b] in [_triggerModules] is not handed that event, whether or not it
    has anything to do with [b]: the modules before [b] and [b] itself
    receive it, and after them only modules that came after [a]. *)
Theorem triggerEvent_skips_next event p l1 b a l2 :
  running p →
  _triggerModules p = l1 ++ b :: a :: l2 →
  (∀ m, m ∈ l1 →
     ∃ module, modules p !! m = Some module
               ∧ ∀ h, (handleEvent module event h).1 = None) →
  (∃ module, modules p !! b = Some module
             ∧ ∀ h, is_Some (handleEvent module event h).1) →
  ∃ p' tr rest,
    triggerEvent event p = Some (p', tr)
    ∧ recipients tr = l1 ++ b :: rest
    ∧ rest `sublist_of` l2
    ∧ a ∉ recipients tr.
Proof.
  intros Hr Hlive Hquiet (module & Hb & Hthrows).
  assert (NoDup (l1 ++ b :: a :: l2)) as Hnd.
  { rewrite <- Hlive. apply (running_snapshot _ Hr). }
  unfold triggerEvent. rewrite Hlive, length_app. simpl.
  remember (S (length l2)) as n eqn:Hn.
  destruct (triggerEvent_loop_quiet event (length l1) (S n) 0 p) as [h Hrun].
  { intros i m [_ Hi] Him. apply Hquiet. rewrite Hlive in Him.
    rewrite lookup_app_l in Him by (simpl in Hi; lia).
    by eapply list_elem_of_lookup_2. }
  { rewrite Hlive, length_app. simpl. lia. }
  rewrite Hrun. clear Hrun. simpl.
  assert (_triggerModules p !! length l1 = Some b) as Hk.
  { rewrite Hlive. by rewrite list_lookup_middle. }
  rewrite Hk, Hb.
  destruct (Hthrows h) as [x Hx].
  destruct (handleEvent module event h) as [thrown h1] eqn:Hcall.
  simpl in Hx. subst thrown.
  pose proof (running_set_heap h1 p Hr) as Hr1.
  assert (b ∈ _triggerModules p) as Hbl by by eapply list_elem_of_lookup_2.
  destruct (cascade_terminates b (RuntimeError x) (set_heap h1 p)) as [[p1 tr1] Hc].
  { apply Hr1. }
  { simpl. eapply elem_of_sublist; [exact Hbl|apply Hr]. }
  change (cascade_fuel (set_heap h1 (set_heap h p))) with (cascade_fuel (set_heap h1 p)).
  change (set_heap h1 (set_heap h p)) with (set_heap h1 p).
  rewrite Hc.
  pose proof (stretch_throw p b event x h1 p1 tr1 Hr Hbl Hc) as Hst1.
  pose proof (_setModuleError_frame _ _ _ _ _ _ Hc) as (_ & _ & _ & Hrec1 & _).
  pose proof (_setModuleError_splice _ _ _ _ _ _ Hc) as Hsub1. simpl in Hsub1.
  rewrite (splice_one_present b _ (length l1) Hk) in Hsub1
    by (rewrite Hlive; exact Hnd).
  destruct (triggerEvent_loop_spec event n (S (length l1)) p1 (stretch_running _ _ _ Hst1))
    as (p' & tr2 & -> & _ & _ & Hsub2 & _).
  assert (recipients tr2 `sublist_of` l2) as Hrest.
  { etrans; [exact Hsub2|].
    etrans; [apply sublist_drop_mono; exact Hsub1|].
    rewrite Hlive, delete_middle.
    assert (drop (S (length l1)) (l1 ++ a :: l2) = l2) as ->; [|done].
    clear. induction l1 as [|y l1 IH]; simpl; [by rewrite drop_0|done]. }
  exists p', (((λ m, Triggered m event) <$> take (length l1) (drop 0 (_triggerModules p)))
              ++ Triggered b event :: Threw b x :: tr1 ++ tr2), (recipients tr2).
  assert (recipients (((λ m, Triggered m event)
                         <$> take (length l1) (drop 0 (_triggerModules p)))
                      ++ Triggered b event :: Threw b x :: tr1 ++ tr2)
          = l1 ++ b :: recipients tr2) as Hrec.
  { rewrite recipients_app. simpl. rewrite recipients_app, Hrec1. simpl.
    f_equal. rewrite drop_0, Hlive, take_app_length.
    clear. induction l1 as [|y l1 IH]; simpl; [done|]. f_equal. exact IH. }
  split_and!; [done|exact Hrec|exact Hrest|].
  rewrite Hrec. intros Hin.
  apply NoDup_app in Hnd as (_ & Hdisj & Hnd2).
  apply NoDup_cons in Hnd2 as [Hb2 Hnd2]. apply NoDup_cons in Hnd2 as [Ha2 _].
  apply elem_of_app in Hin as [Hin|Hin].
  { apply (Hdisj a Hin). right. left. }
  apply elem_of_cons in Hin as [->|Hin]; [apply Hb2; left|].
  apply Ha2. by eapply elem_of_sublist.
Qed.
End trigger_more.



(** X11 at the registry [Demo.independent_faulty] with both modules live:
    [b] throws on [init], and [a], which follows it, does not get it. *)
Lemma triggerEvent_skips_next_witness :
  running (set_triggerModules ["b"; "a"] (Demo.built_parser Demo.independent_faulty))
  ∧ ∃ p' tr rest,
      triggerEvent (Demo.init_at 0)
        (set_triggerModules ["b"; "a"] (Demo.built_parser Demo.independent_faulty))
      = Some (p', tr)
      ∧ recipients tr = [] ++ "b" :: rest
      ∧ rest `sublist_of` []
      ∧ "a" ∉ recipients tr.
Proof.
  assert (running (set_triggerModules ["b"; "a"]
                     (Demo.built_parser Demo.independent_faulty))) as Hr.
  { destruct (built_parser_built Demo.independent_faulty) as (Hb & He & _);
      [vm_compute; repeat constructor; set_solver|vm_compute; exact I|].
    assert (moduleOrder (Demo.built_parser Demo.independent_faulty) = ["b"; "a"])
      as Ho by (vm_compute; reflexivity).
    rewrite <- Ho.
    apply (running_start (Demo.built_parser Demo.independent_faulty));
      first [done|apply same_setup_refl]. }
  split; [done|].
  apply (triggerEvent_skips_next (Demo.init_at 0)
           (set_triggerModules ["b"; "a"] (Demo.built_parser Demo.independent_faulty))
           [] "b" "a" []).
  - done.
  - vm_compute. reflexivity.
  - by intros m ?%elem_of_nil.
  - eexists. split; [vm_compute; reflexivity|]. intros h. vm_compute. eauto.
Defined.

(** * Further facts about [parseEvents] *)

Section run_more.
Context {H : Host}.
Implicit Types (reg : list (string * ModuleClass)) (p : Parser).
Implicit Types (tr : list Obs) (err : ModuleError) (event : Event).




(** X13. [parseEvents] on a parser whose [moduleOrder] is empty, as it is
    before [buildModules()], returns without an exception: nothing is
    normalised, no module is handed anything, and only the clock moves, to
    the timestamp of the last event. *)
Theorem parseEvents_without_modules events p :
  moduleOrder p = [] →
  parseEvents events p
  = Ok (set_timestamp (default (_timestamp p) (timestamp <$> last events))
          (set_triggerModules [] p),
        [Mutated [] (_moduleErrors p)]).
Proof.
  intros Ho.
  assert (∀ ev q, _triggerModules q = [] → triggerEvent ev q = Some (q, [])) as Hfab.
  { intros ev q Hq. unfold triggerEvent. by rewrite Hq. }
  assert (∀ l q, _triggerModules q = [] →
            analysis_pass l q
            = Some (set_timestamp (default (_timestamp q) (timestamp <$> last l)) q, []))
    as Hpass.
  { induction l as [|e l IH]; intros q Hq; simpl.
    - by destruct q.
    - rewrite Hfab by done. rewrite IH by done. simpl. rewrite last_cons.
      by destruct (last l). }
  unfold parseEvents, fabricateEvent. rewrite Ho. cbn [run_normalisers]. cbv zeta.
  rewrite Ho. rewrite Hfab by done. rewrite Hpass by done. by rewrite Hfab by done.
Qed.

(** X14. After a run the clock of the parser stands at the timestamp of
    the last event the normalisers returned, or where it stood when they
    returned none; the fight's start and end are untouched,
    [currentTimestamp] is that timestamp capped at the end of the fight, and
    [fightDuration] is the time from the start of the fight to there. *)
Theorem parseEvents_clock p events p' tr :
  built p → _moduleErrors p = ∅ →
  parseEvents events p = Ok (p', tr) →
  ∃ tr_norm tr_rest events',
    tr = tr_norm ++ tr_rest
    ∧ normalise_chain events (moduleOrder p) tr_norm events'
    ∧ _timestamp p' = default (_timestamp p) (timestamp <$> last events')
    ∧ fight_start_time p' = fight_start_time p
    ∧ fight_end_time p' = fight_end_time p
    ∧ currentTimestamp p'
      = Z.min (fight_end_time p)
              (default (_timestamp p) (timestamp <$> last events'))
    ∧ fightDuration p'
      = (Z.min (fight_end_time p)
               (default (_timestamp p) (timestamp <$> last events'))
         - fight_start_time p)%Z.
Proof.
  intros Hb Hempty Hrun.
  pose proof (parseEvents_spec events p Hb Hempty) as Hspec.
  pose proof (run_normalisers_spec (moduleOrder p) events p (built_instances _ Hb))
    as Hnorm.
  destruct (run_normalisers _ _ _) as [[[events' p1] tr1]|[[e p1] tr1]|];
    [|congruence|done].
  destruct Hnorm as (Hch & Hs & Hsnap & Ht1).
  destruct Hspec as (p3 & tr3 & p4 & tr4 & p5 & tr5 & Hr2 & Hinit & Hreal & Hcompl
                     & Heq & Hst3 & Hst4 & Hst5).
  rewrite Heq in Hrun. injection Hrun as <- <-.
  destruct (fabricateEvent_spec init_event None _ Hr2)
    as (p3' & tr3' & Hinit' & _ & Ht3 & _).
  rewrite Hinit in Hinit'. injection Hinit' as <- <-.
  destruct (analysis_pass_spec events' p3 (stretch_running _ _ _ Hst3))
    as (p4' & tr4' & Hreal' & _ & Ht4 & _).
  rewrite Hreal in Hreal'. injection Hreal' as <- <-.
  destruct (fabricateEvent_spec complete_event None p4 (stretch_running _ _ _ Hst4))
    as (p5' & tr5' & Hcompl' & _ & Ht5 & _).
  rewrite Hcompl in Hcompl'. injection Hcompl' as <- <-.
  pose proof (stretch_app _ _ _ _ _ Hst3 (stretch_app _ _ _ _ _ Hst4 Hst5)) as Hst.
  destruct (stretch_setup _ _ _ Hst) as (_ & _ & _ & Hstart & Hend).
  destruct Hs as (_ & _ & _ & Hstart1 & Hend1). simpl in *.
  assert (_timestamp p5 = default (_timestamp p) (timestamp <$> last events')) as Hclock.
  { rewrite Ht5, Ht4, Ht3. simpl. by rewrite Ht1. }
  exists tr1, (Mutated (moduleOrder p) ∅ :: tr3 ++ tr4 ++ tr5), events'.
  split_and!; [done|done|done|congruence|congruence| |].
  - unfold currentTimestamp. rewrite Hclock. congruence.
  - unfold fightDuration, currentTimestamp. rewrite Hclock. congruence.
Qed.
End run_more.

(** * Further facts about failures during a run *)

Section order_facts.
Context {H : Host}.
Implicit Types (reg : list (string * ModuleClass)) (p : Parser).
Implicit Types (tr : list Obs) (err : ModuleError) (event : Event).

Lemma throws_once_app reg out tr1 tr2 :
  throws_once reg out (tr1 ++ tr2)
  ↔ throws_once reg out tr1 ∧ throws_once reg (out_after reg out tr1) tr2.
Proof.
  revert out. induction tr1 as [|o tr1 IH]; intros out; simpl; [tauto|].
  destruct o; rewrite ?IH; tauto.
Qed.

Lemma throws_once_skip reg out tr :
  (∀ b x, Threw b x ∉ tr) →
  throws_once reg out tr ∧ out_after reg out tr = out.
Proof.
  revert out. induction tr as [|o tr IH]; intros out Hno; simpl; [done|].
  assert (∀ b x, Threw b x ∉ tr) as Hno'.
  { intros b x Hin. apply (Hno b x). by right. }
  destruct o; auto. destruct (Hno mod' error). left.
Qed.

Lemma throws_once_out reg out tr b y :
  throws_once reg out tr → out b → Threw b y ∉ tr.
Proof.
  revert out. induction tr as [|o tr IH]; intros out Honce Hout Hin.
  { by apply elem_of_nil in Hin. }
  apply elem_of_cons in Hin as [<-|Hin]; simpl in Honce.
  - by destruct Honce.
  - destruct o; try by eapply IH. destruct Honce as [_ Honce].
    eapply IH; [exact Honce| |exact Hin]. simpl. auto.
Qed.

Lemma mutated_no_throw tr :
  Forall (λ o, ∃ l e, o = Mutated l e) tr → ∀ b x, Threw b x ∉ tr.
Proof.
  rewrite Forall_forall. intros Hmut b x Hin.
  by destruct (Hmut _ Hin) as (? & ? & ?).
Qed.

Lemma _setModuleError_origin fuel m err p p' tr :
  _setModuleError fuel m err p = Some (p', tr) →
  ∀ k e, _moduleErrors p' !! k = Some e →
    _moduleErrors p !! k = Some e ∨ (k = m ∧ e = err)
    ∨ ∃ dep, e = DependencyCascadeError dep.
Proof.
  apply (_setModuleError_ind
    (λ m err p p' tr,
       ∀ k e, _moduleErrors p' !! k = Some e →
         _moduleErrors p !! k = Some e ∨ (k = m ∧ e = err)
         ∨ ∃ dep, e = DependencyCascadeError dep)
    (λ m reg p p' tr,
       ∀ k e, _moduleErrors p' !! k = Some e →
         _moduleErrors p !! k = Some e ∨ ∃ dep, e = DependencyCascadeError dep)).
  - auto.
  - auto.
  - intros m0 k cls reg p0 p1 p2 tr1 tr2 _ Hcall Hrest k' e Hk'.
    destruct (Hrest k' e Hk') as [H1|?]; [|by right].
    destruct (Hcall k' e H1) as [?|[[_ ->]|?]]; eauto.
  - intros m0 err0 p0 p1 tr0 live errors p2 Hrest k e Hk.
    destruct (Hrest k e Hk) as [H2|?]; [|by auto].
    subst p2 errors. simpl in H2.
    apply lookup_insert_Some in H2 as [[-> ->]|[_ ?]]; auto.
Qed.

Lemma orderly_nil p p' :
  _moduleErrors p' = _moduleErrors p → orderly p p' [].
Proof.
  intros He. split_and!.
  - intros m e. rewrite He. auto.
  - by intros ? ? ?%elem_of_nil.
  - done.
Qed.

Lemma orderly_app p p1 p2 tr1 tr2 :
  stretch p p1 tr1 → orderly p p1 tr1 → orderly p1 p2 tr2 →
  orderly p p2 (tr1 ++ tr2).
Proof.
  intros Hst (Hent1 & Hcall1 & Honce1) (Hent2 & Hcall2 & Honce2).
  assert (_constructors p1 = _constructors p) as Hreg
    by by destruct (stretch_setup _ _ _ Hst) as (_ & ? & _).
  split_and!.
  - intros m e Hm. destruct (Hent2 m e Hm) as [H1|[(x & -> & ?)|?]].
    + destruct (Hent1 m e H1) as [?|[(x & -> & ?)|?]]; [by left| |by auto].
      right. left. exists x. split; [done|]. apply elem_of_app. auto.
    + right. left. exists x. split; [done|]. apply elem_of_app. auto.
    + auto.
  - intros b x [?|?]%elem_of_app; rewrite recipients_app, elem_of_app; eauto.
  - intros out Hout. apply throws_once_app. split; [auto|].
    rewrite <- Hreg. apply Honce2. rewrite Hreg.
    by destruct (stretch_isolates _ _ _ Hst out Hout).
Qed.

Lemma orderly_call p m event h :
  orderly p (set_heap h p) [Triggered m event].
Proof.
  split_and!; simpl; [by left| |done].
  by intros ? ? ?%list_elem_of_singleton.
Qed.

Lemma orderly_throw p m event x h p1 tr1 :
  running p → m ∈ _triggerModules p →
  _setModuleError (cascade_fuel (set_heap h p)) m (RuntimeError x) (set_heap h p)
    = Some (p1, tr1) →
  orderly p p1 (Triggered m event :: Threw m x :: tr1).
Proof.
  intros Hr Hm Hc.
  pose proof (_setModuleError_frame _ _ _ _ _ _ Hc) as (_ & _ & _ & _ & Hmut).
  pose proof (mutated_no_throw tr1 Hmut) as Hno.
  split_and!.
  - intros k e Hk.
    destruct (_setModuleError_origin _ _ _ _ _ _ Hc k e Hk) as [?|[[-> ->]|?]];
      [by left| |by auto].
    right. left. exists x. split; [done|]. right. left.
  - intros b y [?|[?|Hin]%elem_of_cons]%elem_of_cons; simplify_eq.
    + simpl. left.
    + by destruct (Hno b y).
  - intros out Hout. simpl. split; [by intros ?%Hout|].
    apply throws_once_skip, Hno.
Qed.

Lemma triggerEvent_loop_orderly event n : ∀ k p p' tr,
  running p → triggerEvent_loop n k event p = Some (p', tr) →
  stretch p p' tr ∧ orderly p p' tr.
Proof.
  induction n as [|n IH]; intros k p p' tr Hr Hrun; simpl in Hrun.
  { simplify_eq. split; [|by apply orderly_nil].
    by apply stretch_nil; [|apply same_setup_refl|]. }
  destruct (_triggerModules p !! k) as [m|] eqn:Hk; [|by eapply IH].
  assert (m ∈ _triggerModules p) as Hm by by eapply list_elem_of_lookup_2.
  destruct (running_instance p m Hr Hm) as [module Hmod]. rewrite Hmod in Hrun.
  destruct (handleEvent module event (heap p)) as [[x|] h] eqn:Hcall.
  - destruct (_setModuleError _ _ _ _) as [[p1 tr1]|] eqn:Hc; [|done].
    destruct (triggerEvent_loop n _ _ p1) as [[p2 tr2]|] eqn:Hrest; simplify_eq.
    pose proof (stretch_throw p m event x h p1 tr1 Hr Hm Hc) as Hst1.
    pose proof (orderly_throw p m event x h p1 tr1 Hr Hm Hc) as Hord1.
    destruct (IH _ _ _ _ (stretch_running _ _ _ Hst1) Hrest) as [Hst2 Hord2].
    split.
    + by apply (stretch_app p p1 p' (Triggered m event :: Threw m x :: tr1) tr2).
    + by apply (orderly_app p p1 p' (Triggered m event :: Threw m x :: tr1) tr2).
  - destruct (triggerEvent_loop n _ _ _) as [[p2 tr2]|] eqn:Hrest; simplify_eq.
    pose proof (stretch_call p m event h Hr Hm) as Hst1.
    destruct (IH _ _ _ _ (stretch_running _ _ _ Hst1) Hrest) as [Hst2 Hord2].
    split.
    + by apply (stretch_app p (set_heap h p) p' [Triggered m event] tr2).
    + apply (orderly_app p (set_heap h p) p' [Triggered m event] tr2);
        [done|apply orderly_call|done].
Qed.

Lemma analysis_pass_orderly events : ∀ p p' tr,
  running p → analysis_pass events p = Some (p', tr) →
  stretch p p' tr ∧ orderly p p' tr.
Proof.
  induction events as [|event events IH]; intros p p' tr Hr Hrun; simpl in Hrun.
  { simplify_eq. split; [|by apply orderly_nil].
    by apply stretch_nil; [|apply same_setup_refl|]. }
  destruct (triggerEvent _ _) as [[p1 tr1]|] eqn:Hfirst; [|done].
  destruct (analysis_pass events p1) as [[p2 tr2]|] eqn:Hthen; simplify_eq.
  pose proof (running_set_timestamp (timestamp event) p Hr) as Hr0.
  destruct (triggerEvent_loop_orderly _ _ _ _ _ _ Hr0 Hfirst) as [Hst1 Hord1].
  destruct (IH _ _ _ (stretch_running _ _ _ Hst1) Hthen) as [Hst2 Hord2].
  assert (stretch p (set_timestamp (timestamp event) p) []) as Hst0.
  { by apply stretch_nil; [|repeat split|]. }
  split.
  - apply (stretch_app p (set_timestamp (timestamp event) p) p' [] (tr1 ++ tr2));
      [done|]. by eapply stretch_app.
  - apply (orderly_app p (set_timestamp (timestamp event) p) p' [] (tr1 ++ tr2));
      [done|by apply orderly_nil|]. by eapply orderly_app.
Qed.

(** The trigger pass of a run is orderly. *)
Lemma parseEvents_orderly events p p' tr :
  built p → _moduleErrors p = ∅ → parseEvents events p = Ok (p', tr) →
  ∃ events' p1 tr1 rest,
    normalise_chain events (moduleOrder p) tr1 events'
    ∧ tr = tr1 ++ Mutated (moduleOrder p) ∅ :: rest
    ∧ stretch (set_triggerModules (moduleOrder p) p1) p' rest
    ∧ orderly (set_triggerModules (moduleOrder p) p1) p' rest
    ∧ _constructors p1 = _constructors p
    ∧ modules p1 = modules p
    ∧ moduleOrder p1 = moduleOrder p
    ∧ _moduleErrors p1 = ∅.
Proof.
  intros Hb Hempty Hrun.
  pose proof (parseEvents_spec events p Hb Hempty) as Hspec.
  pose proof (run_normalisers_spec (moduleOrder p) events p (built_instances _ Hb))
    as Hnorm.
  destruct (run_normalisers _ _ _) as [[[events' p1] tr1]|[[e p1] tr1]|];
    [|congruence|done].
  destruct Hnorm as (Hch & Hs & Hsnap & _).
  destruct Hspec as (p3 & tr3 & p4 & tr4 & p5 & tr5 & Hr2 & Hinit & Hreal & Hcompl
                     & Heq & Hst3 & Hst4 & Hst5).
  rewrite Heq in Hrun. simplify_eq.
  assert (moduleOrder p1 = moduleOrder p) as Ho by by destruct Hs as (_ & _ & ? & _).
  rewrite Ho in *.
  destruct (triggerEvent_loop_orderly _ _ _ _ _ _ Hr2 Hinit) as [_ Hord3].
  destruct (analysis_pass_orderly _ _ _ _ (stretch_running _ _ _ Hst3) Hreal)
    as [_ Hord4].
  destruct (triggerEvent_loop_orderly _ _ _ _ _ _ (stretch_running _ _ _ Hst4) Hcompl)
    as [_ Hord5].
  exists events', p1, tr1, (tr3 ++ tr4 ++ tr5). split_and!; try done.
  - eapply stretch_app; [exact Hst3|]. by eapply stretch_app.
  - eapply orderly_app; [exact Hst3|exact Hord3|]. by eapply orderly_app.
  - by destruct Hs as (_ & ? & _).
  - by destruct Hs as (? & _).
  - unfold snapshot in Hsnap. congruence.
Qed.

(** X15. At the end of a run on a freshly built parser every entry of
    [_moduleErrors] is either the error that the module's own
    [triggerEvent] threw during the run, or a cascade error that names a
    module which the module declares as a dependency and which has an entry
    itself. *)
Theorem moduleErrors_origin p events p' tr :
  built p → _moduleErrors p = ∅ →
  parseEvents events p = Ok (p', tr) →
  ∀ m e, _moduleErrors p' !! m = Some e →
    (∃ x, e = RuntimeError x ∧ Threw m x ∈ tr)
    ∨ (∃ dep, e = DependencyCascadeError dep
              ∧ declares (_constructors p) m dep
              ∧ is_Some (_moduleErrors p' !! dep)).
Proof.
  intros Hb Hempty Hrun m e Hm.
  destruct (parseEvents_orderly _ _ _ _ Hb Hempty Hrun)
    as (events' & p1 & tr1 & rest & _ & -> & Hst & (Hent & _) & Hreg & _ & _ & He1).
  destruct (Hent m e Hm) as [Hold|[(x & -> & Hin)|(dep & ->)]].
  - simpl in Hold. by rewrite He1, lookup_empty in Hold.
  - left. exists x. split; [done|]. set_solver.
  - right. exists dep. split; [done|].
    pose proof (running_errors _ (stretch_running _ _ _ Hst)) as [HJ _].
    destruct (stretch_setup _ _ _ Hst) as (_ & Hreg' & _). simpl in Hreg'.
    rewrite Hreg', Hreg in HJ. by apply HJ.
Qed.

(** X16. In a run on a freshly built parser a module whose [triggerEvent]
    has thrown had been called just before, is never called again and so
    throws at most once; at the end of the run it is not live and has an
    entry in [_moduleErrors]. *)
Theorem thrower_is_retired p events p' tr t1 b x t2 :
  built p → _moduleErrors p = ∅ →
  parseEvents events p = Ok (p', tr) →
  tr = t1 ++ Threw b x :: t2 →
  (b ∈ recipients t1)
  ∧ (b ∉ recipients t2)
  ∧ (∀ y, Threw b y ∉ t2)
  ∧ (b ∉ _triggerModules p')
  ∧ is_Some (_moduleErrors p' !! b).
Proof.
  intros Hb Hempty Hrun Hsplit.
  destruct (parseEvents_orderly _ _ _ _ Hb Hempty Hrun)
    as (events' & p1 & tr1 & rest & Hch & Htr & Hst & (_ & Hcall & Honce) & Hreg & _ & _ & He1).
  destruct (normalise_chain_quiet _ _ _ _ Hch) as (Hnorm & Hrec1 & _ & Hquiet).
  destruct (stretch_isolates _ _ _ Hst (λ _, False)) as [Hiso Hout]; [done|].
  specialize (Honce (λ _, False)). simpl in Hiso, Hout, Honce. rewrite Hreg in *.
  assert (Threw b x ∈ rest) as Hin.
  { assert (Threw b x ∈ tr) as Hin by (rewrite Hsplit; set_solver).
    rewrite Htr in Hin. apply elem_of_app in Hin as [Hin|Hin]; [by destruct (Hquiet b x)|].
    by apply elem_of_cons in Hin as [?|?]. }
  assert (isolates (_constructors p) (λ _, False) tr
          ∧ throws_once (_constructors p) (λ _, False) tr) as [Hiso' Honce'].
  { rewrite Htr. split.
    - apply isolates_app.
      destruct (normalise_isolates (_constructors p) (λ _, False) tr1 Hnorm) as [? ->].
      done.
    - apply throws_once_app.
      destruct (throws_once_skip (_constructors p) (λ _, False) tr1 Hquiet) as [? ->].
      split; [done|]. simpl. by apply Honce. }
  rewrite Hsplit in Hiso', Honce'.
  apply throws_once_app in Honce' as [_ [_ Honce2]].
  split_and!.
  - (* the call that threw *)
    assert (b ∈ recipients tr → b ∉ recipients t2 → b ∈ recipients t1) as Hwhere.
    { rewrite Hsplit, recipients_app, elem_of_app. simpl. tauto. }
    apply Hwhere.
    + rewrite Htr, recipients_app, elem_of_app. right. simpl. by eapply Hcall.
    + eapply isolates_after_throw; [exact Hiso'|by left].
  - eapply isolates_after_throw; [exact Hiso'|by left].
  - intros y. eapply throws_once_out; [exact Honce2|]. right. by left.
  - apply Hout. eapply out_after_throw; [done|by left].
  - by eapply (stretch_threw _ _ _ Hst).
Qed.


Lemma run_normalisers_missing order : ∀ events p m,
  m ∈ order → modules p !! m = None →
  match run_normalisers order events p with
  | Throws (e, q, tr) => recipients tr = []
  | _ => False
  end.
Proof.
  induction order as [|x order IH]; intros events p m Hin Hm; simpl.
  { by apply elem_of_nil in Hin. }
  destruct (modules p !! x) as [module|] eqn:Hx; [|done].
  destruct (normalise module events (heap p)) as [[events' h]|]; [|done].
  apply elem_of_cons in Hin as [->|Hin]; [congruence|].
  specialize (IH events' (set_heap h p) m Hin Hm).
  by destruct (run_normalisers order events' (set_heap h p)) as [[[? ?] ?]|[[? ?] ?]|].
Qed.

(** X18. On a parser in which some module of [moduleOrder] has no
    instance, as [buildModules()] leaves it when a constructor throws,
    [parseEvents] throws before any [triggerEvent] is called, and
    [generateResults] throws too. *)
Theorem missing_instance_is_fatal events p m :
  m ∈ moduleOrder p → modules p !! m = None →
  (∃ e q tr, parseEvents events p = Throws (e, q, tr) ∧ recipients tr = [])
  ∧ (∃ m' q tr, generateResults p = Throws (MissingInstance m', q, tr)
                ∧ m' ∈ moduleOrder p ∧ modules p !! m' = None).
Proof.
  intros Hin Hm. split.
  - pose proof (run_normalisers_missing _ events p m Hin Hm) as Hnorm.
    unfold parseEvents.
    destruct (run_normalisers _ _ _) as [[[? ?] ?]|[[e q] tr]|]; [done| |done].
    by exists e, q, tr.
  - unfold generateResults.
    destruct (list_find _ (moduleOrder p)) as [[i m']|] eqn:Hfind.
    + apply list_find_Some in Hfind as (Hi & Hnone & _).
      exists m', p, []. split_and!; [done| |done]. by eapply list_elem_of_lookup_2.
    + apply list_find_None in Hfind. rewrite Forall_forall in Hfind.
      by destruct (Hfind m Hin).
Qed.
End order_facts.

(** * The further facts about runs at concrete registries *)


(** X13 at a new parser with the registry [Demo.chain] and two events. *)
Lemma parseEvents_without_modules_witness :
  parseEvents Demo.two_casts (Demo.parser Demo.chain)
  = Ok (set_timestamp 7 (set_triggerModules [] (Demo.parser Demo.chain)),
        [Mutated [] ∅]).
Proof.
  apply (parseEvents_without_modules Demo.two_casts (Demo.parser Demo.chain)).
  reflexivity.
Defined.

(** X14 at the registry [Demo.mixed] and two events, the second of them
    after the end of the fight. *)
Lemma parseEvents_clock_witness :
  built (Demo.built_parser Demo.mixed)
  ∧ _moduleErrors (Demo.built_parser Demo.mixed) = ∅
  ∧ _timestamp (Demo.final Demo.mixed Demo.past_the_end) = 2000%Z
  ∧ currentTimestamp (Demo.final Demo.mixed Demo.past_the_end) = 1000%Z
  ∧ ∃ tr_norm tr_rest events',
      Demo.trace Demo.mixed Demo.past_the_end = tr_norm ++ tr_rest
      ∧ normalise_chain Demo.past_the_end
          (moduleOrder (Demo.built_parser Demo.mixed)) tr_norm events'
      ∧ _timestamp (Demo.final Demo.mixed Demo.past_the_end)
        = default (_timestamp (Demo.built_parser Demo.mixed))
                  (timestamp <$> last events').
Proof.
  destruct (built_parser_built Demo.mixed) as (Hb & He & _);
    [vm_compute; repeat constructor; set_solver|vm_compute; exact I|].
  split_and!; [done|done|vm_compute; reflexivity..|].
  destruct (parseEvents_clock (Demo.built_parser Demo.mixed) Demo.past_the_end
              (Demo.final Demo.mixed Demo.past_the_end)
              (Demo.trace Demo.mixed Demo.past_the_end))
    as (tr_norm & tr_rest & events' & Htr & Hch & Hclock & _);
    [done|done|apply demo_run; vm_compute; exact I|].
  exists tr_norm, tr_rest, events'.
  split; [exact Htr|]. split; [exact Hch|exact Hclock].
Defined.

(** X15 at the registry [Demo.chain_faulty] and one event on which [b]
    throws. *)
Lemma moduleErrors_origin_witness :
  built (Demo.built_parser Demo.chain_faulty)
  ∧ _moduleErrors (Demo.built_parser Demo.chain_faulty) = ∅
  ∧ _moduleErrors (Demo.final Demo.chain_faulty Demo.one_cast) !! "m"
    = Some (DependencyCascadeError "b")
  ∧ ∀ m e,
      _moduleErrors (Demo.final Demo.chain_faulty Demo.one_cast) !! m = Some e →
      (∃ x, e = RuntimeError x
            ∧ Threw m x ∈ Demo.trace Demo.chain_faulty Demo.one_cast)
      ∨ (∃ dep, e = DependencyCascadeError dep
                ∧ declares (_constructors (Demo.built_parser Demo.chain_faulty)) m dep
                ∧ is_Some (_moduleErrors (Demo.final Demo.chain_faulty Demo.one_cast)
                             !! dep)).
Proof.
  destruct (built_parser_built Demo.chain_faulty) as (Hb & He & _);
    [vm_compute; repeat constructor; set_solver|vm_compute; exact I|].
  split_and!; [done|done|vm_compute; reflexivity|].
  apply (moduleErrors_origin (Demo.built_parser Demo.chain_faulty) Demo.one_cast);
    [done|done|apply demo_run; vm_compute; exact I].
Defined.

(** X16 at the same run, for [b]. *)
Lemma thrower_is_retired_witness :
  built (Demo.built_parser Demo.chain_faulty)
  ∧ _moduleErrors (Demo.built_parser Demo.chain_faulty) = ∅
  ∧ @Threw Demo.host "b" "boom" ∈ Demo.trace Demo.chain_faulty Demo.one_cast
  ∧ ("b" ∉ _triggerModules (Demo.final Demo.chain_faulty Demo.one_cast))
  ∧ is_Some (_moduleErrors (Demo.final Demo.chain_faulty Demo.one_cast) !! "b").
Proof.
  destruct (built_parser_built Demo.chain_faulty) as (Hb & He & _);
    [vm_compute; repeat constructor; set_solver|vm_compute; exact I|].
  assert (Demo.trace Demo.chain_faulty Demo.one_cast !! 8
          = Some (@Threw Demo.host "b" "boom")) as Hi by (vm_compute; reflexivity).
  destruct (thrower_is_retired (Demo.built_parser Demo.chain_faulty) Demo.one_cast
              (Demo.final Demo.chain_faulty Demo.one_cast)
              (Demo.trace Demo.chain_faulty Demo.one_cast)
              (take 8 (Demo.trace Demo.chain_faulty Demo.one_cast)) "b" "boom"
              (drop 9 (Demo.trace Demo.chain_faulty Demo.one_cast)))
    as (_ & _ & _ & Hlive & Hentry);
    [exact Hb|exact He|apply demo_run; vm_compute; exact I
    |exact (eq_sym (take_drop_middle _ _ _ Hi))|].
  split; [exact Hb|]. split; [exact He|].
  split; [exact (list_elem_of_lookup_2 _ _ _ Hi)|].
  split; [exact Hlive|exact Hentry].
Defined.


(** X18 at the parser that [buildModules()] leaves behind at the registry
    [Demo.chain_broken], where the constructor of [m] throws. *)
Lemma missing_instance_is_fatal_witness :
  moduleOrder (Demo.failed_build Demo.chain_broken) = ["b"; "m"; "a"]
  ∧ modules (Demo.failed_build Demo.chain_broken) !! "m" = None
  ∧ (∃ e q tr,
       parseEvents Demo.one_cast (Demo.failed_build Demo.chain_broken)
       = Throws (e, q, tr) ∧ recipients tr = [])
  ∧ (∃ m' q tr,
       generateResults (Demo.failed_build Demo.chain_broken)
       = Throws (MissingInstance m', q, tr)
       ∧ m' ∈ moduleOrder (Demo.failed_build Demo.chain_broken)
       ∧ modules (Demo.failed_build Demo.chain_broken) !! m' = None).
Proof.
  split; [vm_compute; reflexivity|]. split; [vm_compute; reflexivity|].
  apply (missing_instance_is_fatal Demo.one_cast
           (Demo.failed_build Demo.chain_broken) "m").
  - vm_compute. set_solver.
  - vm_compute. reflexivity.
Defined.
